(** * WarpX time-advance core: a shallow embedding and its properties

    The development has three parts.  Part I embeds the pieces of the
    source that the properties talk about, one module per source file:

    - [amrex]        the few AMReX value types the code relies on
                     ([IntVect] with its comparison operators, [Box],
                     [MultiFab]);
    - [CoarsenIO]    Source/Utils/CoarsenIO.cpp ([Loop], [Coarsen]);
    - [Pusher]       Particles/Pusher/UpdatePosition.H;
    - [CustomDensity] the InjectorDensityCustom example profile;
    - [ParticleComps] the runtime-attribute registry of
                     WarpXParticleContainer.H;
    - [Deposition]   charge deposition of WarpXParticleContainer;
    - [Psatd]        PsatdAlgorithmRZ and its coefficient cache;
    - [BTD]          Diagnostics/BTDiagnostics.cpp ([DoDump], [Flush], ...);
    - [BTDBuffers]   the particle counters and the index boxes of
                     the same file;
    - [InitData]     Source/Initialization/WarpXInitData.cpp
                     ([PostProcessBaseGrids],
                     [computeMaxStepBoostAccelerator], [CheckGuardCells]);
    - [Examples]     small concrete inputs.

    Functions whose text is not among the sources (the interpolation
    kernel of the coarsening, the deposition kernel, the spectral
    push) are modelled from the specification; each says so.

    Part II states and proves the properties.  Part III proves
    further properties of the embedded functions: invariants, what
    a call leaves alone and how it fails.

    Conventions.  A C++ [int] is a [Z] (signed overflow is undefined
    behaviour in C++ and never wraps), an index into an [amrex::Vector]
    is a [nat] and a read or write outside the vector is [None].
    [amrex::Real] is a mathematical real number of [Stdlib.Reals]:
    rounding, infinities and NaN are outside the model. *)

From Stdlib Require Import ZArith Reals Lra Lia.
From stdpp Require Import gmap strings list.

Local Open Scope Z_scope.

(* ================================================================== *)
(** * Part I: the embedding                                            *)
(* ================================================================== *)

(** ** Build configuration and run-time failures *)

(** The geometry a WarpX executable is compiled for: exactly one of the
    macros [WARPX_DIM_1D_Z], [WARPX_DIM_XZ], [WARPX_DIM_RZ],
    [WARPX_DIM_3D] is defined. *)
Inductive WARPX_DIM : Type := DIM_1D_Z | DIM_XZ | DIM_RZ | DIM_3D.

Definition AMREX_SPACEDIM (dim : WARPX_DIM) : nat :=
  match dim with
  | DIM_1D_Z => 1
  | DIM_XZ | DIM_RZ => 2
  | DIM_3D => 3
  end.

(** How a call can fail.  [AssertionFailed msg] is what
    [WARPX_ALWAYS_ASSERT_WITH_MESSAGE] does when its condition is
    false: the run is aborted with [msg].  [InputError] is an abort
    inside the input-deck reader.  [OutOfBounds] is an access outside
    an array, which C++ leaves undefined. *)
Inductive failure : Type :=
  | AssertionFailed (msg : string)
  | InputError
  | OutOfBounds.

Inductive outcome (A : Type) : Type :=
  | Done (a : A)
  | Fail (f : failure).
Arguments Done {A} a.
Arguments Fail {A} f.

Definition obind {A B : Type} (m : outcome A) (k : A -> outcome B) : outcome B :=
  match m with
  | Done a => k a
  | Fail f => Fail f
  end.

Notation "'do' x <- m ; k" := (obind m (fun x => k))
  (at level 10, x name, m at level 100, k at level 200).

Definition WARPX_ALWAYS_ASSERT_WITH_MESSAGE (cond : bool) (msg : string)
    : outcome unit :=
  if cond then Done tt else Fail (AssertionFailed msg).

(** ** The AMReX value types the code relies on *)

Module amrex.

(** [amrex::IntVect]: [AMREX_SPACEDIM] integers, written as a list
    [[v0; v1; ...]] of that length. *)
Abbreviation IntVect := (list Z).

(** [IntVect(v)]: every component equal to [v]. *)
Definition IntVect_const (dim : WARPX_DIM) (v : Z) : IntVect :=
  replicate (AMREX_SPACEDIM dim) v.

(** [v[i]] *)
Definition IntVect_get (v : IntVect) (i : nat) : Z := nth i v 0.

(** [a + b] and [a - b], component by component. *)
Definition IntVect_add (a b : IntVect) : IntVect :=
  imap (fun i x => x + IntVect_get b i) a.
Definition IntVect_sub (a b : IntVect) : IntVect :=
  imap (fun i x => x - IntVect_get b i) a.

(** [a == b]: all components equal. *)
Definition IntVect_eq (a b : IntVect) : bool := bool_decide (a = b).

(** [a < b] (AMReX_IntVect.H): "true if this is lexicographically less
    than rhs", the last component being the most significant one.  The
    three cases are the three values of [AMREX_SPACEDIM]. *)
Definition IntVect_lt (a b : IntVect) : bool :=
  match a, b with
  | [a0], [b0] => a0 <? b0
  | [a0; a1], [b0; b1] => (a1 <? b1) || ((a1 =? b1) && (a0 <? b0))
  | [a0; a1; a2], [b0; b1; b2] =>
      (a2 <? b2) ||
      ((a2 =? b2) && ((a1 <? b1) || ((a1 =? b1) && (a0 <? b0))))
  | _, _ => false
  end.

(** [a > b] is [b < a] and [a >= b] is [!(a < b)], as in AMReX. *)
Definition IntVect_gt (a b : IntVect) : bool := IntVect_lt b a.
Definition IntVect_ge (a b : IntVect) : bool := negb (IntVect_lt a b).

(** [a.allLE(b)]: less or equal in every component. *)
Definition IntVect_allLE (a b : IntVect) : bool :=
  forallb (fun xy => fst xy <=? snd xy) (zip a b).

(** [amrex::Box]: the index box from [smallEnd] to [bigEnd], both
    included.  The index type is kept by the [BoxArray]. *)
Record Box : Type := mkBox { smallEnd : IntVect; bigEnd : IntVect }.

#[global] Instance Box_eq_dec : EqDecision Box.
Proof. solve_decision. Defined.

Definition grow (bx : Box) (ng : IntVect) : Box :=
  mkBox (IntVect_sub (smallEnd bx) ng) (IntVect_add (bigEnd bx) ng).

(** Membership of the point [(i,j,k)]; as in [amrex::lbound] and
    [amrex::ubound], the bounds along a direction the build does not
    have are both 0. *)
Definition Box_contains (bx : Box) (i j k : Z) : bool :=
  (IntVect_get (smallEnd bx) 0 <=? i) && (i <=? IntVect_get (bigEnd bx) 0) &&
  (IntVect_get (smallEnd bx) 1 <=? j) && (j <=? IntVect_get (bigEnd bx) 1) &&
  (IntVect_get (smallEnd bx) 2 <=? k) && (k <=? IntVect_get (bigEnd bx) 2).

(** [inner] lies within [outer]. *)
Definition Box_within (inner outer : Box) : bool :=
  IntVect_allLE (smallEnd outer) (smallEnd inner) &&
  IntVect_allLE (bigEnd inner) (bigEnd outer).

Record BoxArray : Type := mkBoxArray { boxes : list Box; ixType : IntVect }.

#[global] Instance BoxArray_eq_dec : EqDecision BoxArray.
Proof. solve_decision. Defined.

(** [amrex::Array4<Real>]: values indexed by [(i,j,k,n)]. *)
Definition Array4 : Type := Z -> Z -> Z -> Z -> R.

(** [amrex::MultiFab]: the boxes with their index type, the owner of
    each box, the number of components and of guard cells, and the data
    of each box, whose allocated region is the box grown by the guard
    cells. *)
Record MultiFab : Type := mkMultiFab {
  boxArray : BoxArray;
  DistributionMap : list nat;
  nComp : Z;
  nGrowVect : IntVect;
  fabs : nat -> Array4
}.

Definition set_fab (mf : MultiFab) (b : nat) (a : Array4) : MultiFab :=
  mkMultiFab (boxArray mf) (DistributionMap mf) (nComp mf) (nGrowVect mf)
             (fun b' => if decide (b' = b) then a else fabs mf b').

(** [amrex::ParallelFor (bx, ncomp, f)] with a body that stores
    [f i j k n] in component [n + dcomp] of [arr]: every point of [bx]
    and every [0 <= n < ncomp] is visited once, in no particular order,
    and no iteration reads what another one writes. *)
Definition ParallelFor (bx : Box) (ncomp dcomp : Z)
    (f : Z -> Z -> Z -> Z -> R) (arr : Array4) : Array4 :=
  fun i j k c =>
    if Box_contains bx i j k && (dcomp <=? c) && (c <? dcomp + ncomp)
    then f i j k (c - dcomp)
    else arr i j k c.

(** The first box of the list that contains the point. *)
Fixpoint find_box (bxs : list Box) (b : nat) (i j k : Z) : option nat :=
  match bxs with
  | [] => None
  | bx :: rest =>
      if Box_contains bx i j k then Some b else find_box rest (S b) i j k
  end.

(** [dst.ParallelCopy (src, scomp, dcomp, ncomp)] without guard cells:
    every point of a valid box of [dst] that lies in a valid box of
    [src] receives the [ncomp] components of [src] there; the other
    points keep their value.  Where several boxes of [src] contain the
    point (nodal boxes share their faces), the first one is read. *)
Definition ParallelCopy (dst src : MultiFab) (scomp dcomp ncomp : Z) : MultiFab :=
  mkMultiFab (boxArray dst) (DistributionMap dst) (nComp dst) (nGrowVect dst)
    (fun d i j k c =>
       match boxes (boxArray dst) !! d with
       | Some vbx =>
           if Box_contains vbx i j k && (dcomp <=? c) && (c <? dcomp + ncomp)
           then match find_box (boxes (boxArray src)) 0 i j k with
                | Some t => fabs src t i j k (c - dcomp + scomp)
                | None => fabs dst d i j k c
                end
           else fabs dst d i j k c
       | None => fabs dst d i j k c
       end).

End amrex.

(** ** Source/Utils/CoarsenIO.cpp *)

Module CoarsenIO.
Import amrex.

Definition guard_fill_unsupported : string :=
  "option of filling guard cells of destination MultiFab with coarsening not supported for this interpolation".

Definition not_enough_guard_cells : string :=
  "source fine MultiFab does not have enough guard cells for this interpolation".

Definition not_coarsenable : string :=
  "source MultiFab converted to staggering of destination MultiFab is not coarsenable".

Section Coarsen.
Local Open Scope R_scope.

Variable dim : WARPX_DIM.

(** The points of the fine array that enter the value of the coarse
    point [(i,j,k)], each with its weight, for the staggerings [sf] and
    [sc] and the ratio [cr]. *)
Variable stencil :
  Z * Z * Z -> Z * Z * Z -> Z * Z * Z -> Z -> Z -> Z -> list (R * (Z * Z * Z)).

(** Modelled from the spec: [CoarsenIO::Interp] is defined in
    Utils/CoarsenIO.H, which is not part of the sources.  The value of
    a destination point is a weighted average of the enclosing source
    points, the points and weights depending on the relative
    staggering and on the ratio along each axis. *)
Definition Interp (arr_src : Array4) (sf sc cr : Z * Z * Z)
    (i j k comp : Z) : R :=
  foldr (fun wp c =>
           match wp with
           | (w, (ii, jj, kk)) => w * arr_src ii jj kk comp + c
           end) 0 (stencil sf sc cr i j k).



(** The auxiliary three-component arrays [sf], [sc] and [cr] of
    [Loop]: the components of [v] along the directions the build has,
    and [dflt] along the others. *)
Definition aux3 (v : IntVect) (dflt : Z) : Z * Z * Z :=
  (IntVect_get v 0,
   match dim with
   | DIM_1D_Z => dflt
   | _ => IntVect_get v 1
   end,
   if (AMREX_SPACEDIM dim <=? 2)%nat then dflt else IntVect_get v 2).

(** The body of the loop over the boxes of the destination, for the
    box of index [b].  [mf_src] must have a box of the same index, and
    the stores, if there are any, must land inside the destination
    FArrayBox: the valid box grown by the guard cells of [mf_dst],
    components [0 .. nComp-1].  The loads from the source are not
    checked: an [Array4] has a value everywhere, and the properties
    below say which values they rely on. *)
Definition Loop_box (mf_src : MultiFab) (dcomp scomp ncomp : Z)
    (ngrowvect : IntVect) (sf sc cr : Z * Z * Z)
    (mf_dst : MultiFab) (b : nat) : MultiFab * option failure :=
  match boxes (boxArray mf_dst) !! b, boxes (boxArray mf_src) !! b with
  | Some vbx, Some _ =>
      let bx := grow vbx ngrowvect in
      if (ncomp <=? 0)%Z ||
         Box_within bx (grow vbx (nGrowVect mf_dst)) &&
         (0 <=? dcomp)%Z && (dcomp + ncomp <=? nComp mf_dst)%Z
      then
        let arr_src := fabs mf_src b in
        (set_fab mf_dst b
           (ParallelFor bx ncomp dcomp
              (fun i j k n => Interp arr_src sf sc cr i j k (n + scomp)%Z)
              (fabs mf_dst b)),
         None)
      else (mf_dst, Some OutOfBounds)
  | _, _ => (mf_dst, Some OutOfBounds)
  end.

(** [for (MFIter mfi(mf_dst); mfi.isValid(); ++mfi)], stopping at the
    first failure. *)
Fixpoint MFIter_loop (body : MultiFab -> nat -> MultiFab * option failure)
    (idxs : list nat) (mf_dst : MultiFab) : MultiFab * option failure :=
  match idxs with
  | [] => (mf_dst, None)
  | b :: rest =>
      match body mf_dst b with
      | (mf_dst', None) => MFIter_loop body rest mf_dst'
      | stopped => stopped
      end
  end.

(** A failed assertion ends the call and leaves the destination as
    it is at that point. *)
Definition asserting (check : outcome unit) (mf_dst : MultiFab)
    (rest : MultiFab * option failure) : MultiFab * option failure :=
  match check with
  | Done _ => rest
  | Fail f => (mf_dst, Some f)
  end.

(** [CoarsenIO::Loop].  The result is the destination as the call
    leaves it, and the failure that ended the call, if any.  The loop
    is written without tiling: the grown tiles of a box make up the
    grown box. *)
Definition Loop (mf_dst mf_src : MultiFab) (dcomp scomp ncomp : Z)
    (ngrowvect crse_ratio : IntVect) : MultiFab * option failure :=
  let stag_src := ixType (boxArray mf_src) in
  let stag_dst := ixType (boxArray mf_dst) in
  asserting
    (if IntVect_gt crse_ratio (IntVect_const dim 1)
     then WARPX_ALWAYS_ASSERT_WITH_MESSAGE
            (IntVect_eq ngrowvect (IntVect_const dim 0))
            guard_fill_unsupported
     else Done tt) mf_dst
  (asserting
    (WARPX_ALWAYS_ASSERT_WITH_MESSAGE
       (IntVect_ge (nGrowVect mf_src)
          (IntVect_add (IntVect_sub stag_dst stag_src) ngrowvect))
       not_enough_guard_cells) mf_dst
  (let sf := aux3 stag_src 0 in
   let sc := aux3 stag_dst 0 in
   let cr := aux3 crse_ratio 1 in
   MFIter_loop (Loop_box mf_src dcomp scomp ncomp ngrowvect sf sc cr)
               (seq 0 (length (boxes (boxArray mf_dst)))) mf_dst)).

(** The AMReX box calculus used by [Coarsen]: [Box::convert] to an
    index type, [Box::coarsen] by a ratio (both box by box), and
    [BoxArray::coarsenable]. *)
Variable Box_convert : IntVect -> IntVect -> Box -> Box.
Variable Box_coarsen : IntVect -> IntVect -> Box -> Box.
Variable coarsenable : BoxArray -> IntVect -> bool.

Definition convert (ba : BoxArray) (typ : IntVect) : BoxArray :=
  mkBoxArray (map (Box_convert (ixType ba) typ) (boxes ba)) typ.

Definition coarsen (ba : BoxArray) (ratio : IntVect) : BoxArray :=
  mkBoxArray (map (Box_coarsen (ixType ba) ratio) (boxes ba)) (ixType ba).

(** What a freshly allocated FArrayBox holds. *)
Variable uninitialized : nat -> Array4.

(** The coarsened box array [ba_tmp] of [Coarsen]. *)
Definition ba_tmp (mf_dst mf_src : MultiFab) (crse_ratio : IntVect) : BoxArray :=
  coarsen (convert (boxArray mf_src) (ixType (boxArray mf_dst))) crse_ratio.

(** [ba_tmp == mf_dst.boxArray() and
     mf_src.DistributionMap() == mf_dst.DistributionMap()] *)
Definition same_layout (mf_dst mf_src : MultiFab) (crse_ratio : IntVect) : bool :=
  bool_decide (ba_tmp mf_dst mf_src crse_ratio = boxArray mf_dst) &&
  bool_decide (DistributionMap mf_src = DistributionMap mf_dst).

(** [CoarsenIO::Coarsen], the overload with an [IntVect] of guard
    cells. *)
Definition Coarsen (mf_dst mf_src : MultiFab) (dcomp scomp ncomp : Z)
    (ngrowvect crse_ratio : IntVect) : MultiFab * option failure :=
  asserting
    (WARPX_ALWAYS_ASSERT_WITH_MESSAGE
       (coarsenable (convert (boxArray mf_src) (ixType (boxArray mf_dst)))
          crse_ratio)
       not_coarsenable) mf_dst
  (if same_layout mf_dst mf_src crse_ratio
   then Loop mf_dst mf_src dcomp scomp ncomp ngrowvect crse_ratio
   else
     let mf_tmp :=
       mkMultiFab (ba_tmp mf_dst mf_src crse_ratio) (DistributionMap mf_src)
                  ncomp (IntVect_const dim 0) uninitialized in
     match Loop mf_tmp mf_src 0 scomp ncomp ngrowvect crse_ratio with
     | (mf_tmp', None) => (ParallelCopy mf_dst mf_tmp' 0 dcomp ncomp, None)
     | (_, Some f) => (mf_dst, Some f)
     end).



(** [CoarsenIO::Coarsen], the overload with one number of guard
    cells for all directions. *)
Definition Coarsen_int (mf_dst mf_src : MultiFab) (dcomp scomp ncomp : Z)
    (ngrow : Z) (crse_ratio : IntVect) : MultiFab * option failure :=
  Coarsen mf_dst mf_src dcomp scomp ncomp (IntVect_const dim ngrow) crse_ratio.

End Coarsen.
End CoarsenIO.

(** ** Particles/Pusher/UpdatePosition.H *)

Module Pusher.
Section UpdatePosition.
Local Open Scope R_scope.

Variable dim : WARPX_DIM.
(** [PhysConst::c], the speed of light, defined in Utils/WarpXConst.H. *)
Variable c : R.

Definition inv_c2 : R := 1 / (c * c).

Definition UpdatePosition (x y z ux uy uz dt : R) : R * R * R :=
  (* Compute inverse Lorentz factor *)
  let inv_gamma := 1 / sqrt (1 + (ux * ux + uy * uy + uz * uz) * inv_c2) in
  (* #if (AMREX_SPACEDIM >= 2) *)
  let x' := if (2 <=? AMREX_SPACEDIM dim)%nat
            then x + ux * inv_gamma * dt else x in
  (* #if defined(WARPX_DIM_3D) || defined(WARPX_DIM_RZ) *)
  let y' := match dim with
            | DIM_3D | DIM_RZ => y + uy * inv_gamma * dt
            | _ => y
            end in
  let z' := z + uz * inv_gamma * dt in
  (x', y', z').

End UpdatePosition.

(** The spatial axes, and which of them a particle moves along in each
    geometry: a 1D run has z only, a Cartesian 2D run has x and z, and
    a cylindrical (RZ) run pushes its particles in all three Cartesian
    directions, like a 3D run. *)
Inductive axis : Type := AxisX | AxisY | AxisZ.

Definition axis_active (dim : WARPX_DIM) (a : axis) : bool :=
  match dim, a with
  | DIM_1D_Z, AxisZ => true
  | DIM_1D_Z, _ => false
  | DIM_XZ, AxisY => false
  | DIM_XZ, _ => true
  | DIM_RZ, _ => true
  | DIM_3D, _ => true
  end.

Definition component (a : axis) (v : R * R * R) : R :=
  match a, v with
  | AxisX, (x, _, _) => x
  | AxisY, (_, y, _) => y
  | AxisZ, (_, _, z) => z
  end.

End Pusher.

(** ** Particles/Density/CustomDensityProb.H *)

Module CustomDensity.
Section Constructor.

(** [getArrWithParser] (Utils/WarpXUtil.H) reads the array named
    [prefix.name] from the input deck and stores it in its last
    argument; [None] stands for the abort of the reader when the entry
    is missing or does not parse. *)
Variable getArrWithParser : string -> string -> list R -> option (list R).

(** [p[i] = x] on the [GpuArray<Real,6>] member. *)
Definition GpuArray_set (p : list R) (i : nat) (x : R) : outcome (list R) :=
  if decide (i < length p)%nat then Done (<[i := x]> p) else Fail OutOfBounds.

(** The loop [for (i = 0; i < v.size(); ++i) p[i] = v[i];], with [i]
    the index of the head of [v]. *)
Fixpoint copy_params (v : list R) (i : nat) (p : list R) : outcome (list R) :=
  match v with
  | [] => Done p
  | x :: v' => do p' <- GpuArray_set p i x; copy_params v' (S i) p'
  end.

Definition too_many : string := "Too many parameters for InjectorDensityCustom".

(** The constructor.  [p0] is the content of the member array [p]
    before the constructor runs (six reals, not initialised by the
    code). *)
Definition InjectorDensityCustom (species_name : string) (p0 : list R)
    : outcome (list R) :=
  let v : list R := [] in
  do _ <- WARPX_ALWAYS_ASSERT_WITH_MESSAGE (length v <=? 6)%nat too_many;
  match getArrWithParser species_name "custom_profile_params" v with
  | None => Fail InputError
  | Some v => copy_params v 0 p0
  end.

(** The constructor with the assertion, which the text places before
    the read, left out. *)
Definition InjectorDensityCustom_unchecked (species_name : string) (p0 : list R)
    : outcome (list R) :=
  match getArrWithParser species_name "custom_profile_params" [] with
  | None => Fail InputError
  | Some v => copy_params v 0 p0
  end.

End Constructor.

(** [getDensity]: the density at any position is the first element of
    the member array [p]. *)
Definition getDensity (p : list R) (x y z : R) : option R := p !! 0%nat.

End CustomDensity.

(** ** Particles/WarpXParticleContainer.H: the attribute registry *)

Module ParticleComps.

(** The registry maps of [WarpXParticleContainer], the part of the
    [amrex::ParticleContainer] base it consults (the number of run-time
    components and their communication flags, one per added column),
    and what was printed. *)
Record WarpXParticleContainer : Type := mkPC {
  particle_comps : gmap string Z;
  particle_icomps : gmap string Z;
  particle_runtime_comps : gmap string Z;
  particle_runtime_icomps : gmap string Z;
  m_num_runtime_real : Z;
  m_num_runtime_int : Z;
  h_redistribute_real_comp : list bool;
  h_redistribute_int_comp : list bool;
  printed : list string
}.

Section Registry.

(** [PIdx::nattribs], the number of compile-time real attributes. *)
Variable PIdx_nattribs : Z.

(** [amrex::ParticleContainer<0,0,PIdx::nattribs>::NumRealComps] and
    [NumIntComps]: compile-time plus run-time components. *)
Definition NumRealComps (pc : WarpXParticleContainer) : Z :=
  PIdx_nattribs + m_num_runtime_real pc.

Definition NumIntComps (pc : WarpXParticleContainer) : Z :=
  0 + m_num_runtime_int pc.

(** The base-class [AddRealComp (comm)] and [AddIntComp (comm)]: one
    more run-time column. *)
Definition base_AddRealComp (comm : bool) (pc : WarpXParticleContainer)
    : WarpXParticleContainer :=
  mkPC (particle_comps pc) (particle_icomps pc)
       (particle_runtime_comps pc) (particle_runtime_icomps pc)
       (m_num_runtime_real pc + 1) (m_num_runtime_int pc)
       (h_redistribute_real_comp pc ++ [comm]) (h_redistribute_int_comp pc)
       (printed pc).

Definition base_AddIntComp (comm : bool) (pc : WarpXParticleContainer)
    : WarpXParticleContainer :=
  mkPC (particle_comps pc) (particle_icomps pc)
       (particle_runtime_comps pc) (particle_runtime_icomps pc)
       (m_num_runtime_real pc) (m_num_runtime_int pc + 1)
       (h_redistribute_real_comp pc) (h_redistribute_int_comp pc ++ [comm])
       (printed pc).

Definition Print (msg : string) (pc : WarpXParticleContainer)
    : WarpXParticleContainer :=
  mkPC (particle_comps pc) (particle_icomps pc)
       (particle_runtime_comps pc) (particle_runtime_icomps pc)
       (m_num_runtime_real pc) (m_num_runtime_int pc)
       (h_redistribute_real_comp pc) (h_redistribute_int_comp pc)
       (printed pc ++ [msg]).

Definition AddRealComp (name : string) (comm : bool)
    (pc : WarpXParticleContainer) : WarpXParticleContainer :=
  match particle_comps pc !! name with
  | None =>
      let pc1 :=
        mkPC (<[name := NumRealComps pc]> (particle_comps pc))
             (particle_icomps pc)
             (<[name := NumRealComps pc - PIdx_nattribs]>
                (particle_runtime_comps pc))
             (particle_runtime_icomps pc)
             (m_num_runtime_real pc) (m_num_runtime_int pc)
             (h_redistribute_real_comp pc) (h_redistribute_int_comp pc)
             (printed pc) in
      base_AddRealComp comm pc1
  | Some _ =>
      Print (name +:+ " already exists in particle_comps, not adding.") pc
  end.

Definition AddIntComp (name : string) (comm : bool)
    (pc : WarpXParticleContainer) : WarpXParticleContainer :=
  match particle_icomps pc !! name with
  | None =>
      let pc1 :=
        mkPC (particle_comps pc)
             (<[name := NumIntComps pc]> (particle_icomps pc))
             (particle_runtime_comps pc)
             (<[name := NumIntComps pc - 0]> (particle_runtime_icomps pc))
             (m_num_runtime_real pc) (m_num_runtime_int pc)
             (h_redistribute_real_comp pc) (h_redistribute_int_comp pc)
             (printed pc) in
      base_AddIntComp comm pc1
  | Some _ =>
      Print (name +:+ " already exists in particle_icomps, not adding.") pc
  end.

(** The registry is consistent when every registered real attribute
    names an existing column, no two names share a column, and the
    run-time index of a name is its column counted from the first
    run-time column. *)
Definition registry_ok (pc : WarpXParticleContainer) : Prop :=
  (forall name i, particle_comps pc !! name = Some i -> i < NumRealComps pc) /\
  (forall n1 n2 i,
     particle_comps pc !! n1 = Some i -> particle_comps pc !! n2 = Some i ->
     n1 = n2) /\
  (forall name r,
     particle_runtime_comps pc !! name = Some r ->
     particle_comps pc !! name = Some (r + PIdx_nattribs)).

End Registry.

(** Everything of a container but the printed messages: the four
    registry maps and the columns. *)
Definition registry (pc : WarpXParticleContainer) :=
  (particle_comps pc, particle_runtime_comps pc,
   particle_icomps pc, particle_runtime_icomps pc,
   (m_num_runtime_real pc, h_redistribute_real_comp pc),
   (m_num_runtime_int pc, h_redistribute_int_comp pc)).

End ParticleComps.

(** ** Charge deposition *)

Module Deposition.

(** A macro-particle: its position in units of the cell size along
    each axis, and its weight. *)
Record particle : Type := mkParticle { px : R; py : R; pz : R; wp : R }.

Inductive shape_order : Type := order0 | order1 | order2 | order3.

Section Deposit.
Local Open Scope R_scope.

Variable dim : WARPX_DIM.

(** [std::floor] *)
Definition floor (x : R) : Z := Int_part x.

(** Modelled from the spec: the shape function of configurable order
    (nearest grid point through cubic) is defined in
    Particles/ShapeFactors.H, which is not part of the sources.  The
    result is the index of the leftmost grid point the particle
    touches along one axis and the weights of that point and of its
    right neighbours, the B-spline of the given order. *)
Definition shape_factor (order : shape_order) (xmid : R) : Z * list R :=
  match order with
  | order0 =>
      let j := floor (xmid + 1 / 2) in
      (j, [1])
  | order1 =>
      let j := floor xmid in
      let xint := xmid - IZR j in
      (j, [1 - xint; xint])
  | order2 =>
      let j := floor (xmid + 1 / 2) in
      let xint := xmid - IZR j in
      ((j - 1)%Z,
       [1 / 2 * (1 / 2 - xint) ^ 2;
        3 / 4 - xint ^ 2;
        1 / 2 * (1 / 2 + xint) ^ 2])
  | order3 =>
      let j := floor xmid in
      let xint := xmid - IZR j in
      ((j - 1)%Z,
       [1 / 6 * (1 - xint) ^ 3;
        2 / 3 - xint ^ 2 * (1 - xint / 2);
        2 / 3 - (1 - xint) ^ 2 * (1 - (1 - xint) / 2);
        1 / 6 * xint ^ 3])
  end.

(** The grid points touched along one axis, each with its weight.  An
    axis that the geometry does not have contributes the single index
    0 with weight 1. *)
Definition axis_points (present : bool) (order : shape_order) (xmid : R)
    : list (Z * R) :=
  if present
  then imap (fun m s => ((fst (shape_factor order xmid) + Z.of_nat m)%Z, s))
            (snd (shape_factor order xmid))
  else [(0%Z, 1)].

Definition has_x : bool := (2 <=? AMREX_SPACEDIM dim)%nat.
Definition has_y : bool := (3 <=? AMREX_SPACEDIM dim)%nat.

(** Modelled from the spec: the deposition kernel
    (Particles/Deposition/ChargeDeposition.H) is not part of the
    sources.  A particle of weight [wp] of a species of charge [q]
    scatters [q * wp] onto the surrounding mesh cells, each cell
    receiving the product of the shape weights along the axes. *)
Definition contributions (q : R) (order : shape_order) (p : particle)
    : list (Z * Z * Z * R) :=
  ix ← axis_points has_x order (px p);
  iy ← axis_points has_y order (py p);
  iz ← axis_points true order (pz p);
  [((fst ix, fst iy, fst iz), q * wp p * (snd ix * snd iy * snd iz))].

(** [rho(c) += v] *)
Definition add_at (rho : Z * Z * Z -> R) (c : Z * Z * Z) (v : R)
    : Z * Z * Z -> R :=
  fun c' => if decide (c' = c) then rho c' + v else rho c'.

Definition deposit_particle (q : R) (order : shape_order)
    (rho : Z * Z * Z -> R) (p : particle) : Z * Z * Z -> R :=
  foldl (fun r cv => add_at r (fst cv) (snd cv)) rho (contributions q order p).

(** Modelled from the spec: [WarpXParticleContainer::DepositCharge],
    declared in WarpXParticleContainer.H and defined in a file that is
    not part of the sources.  With [reset] the charge density starts
    from zero; then every particle of the species is deposited. *)
Definition DepositCharge (q : R) (order : shape_order) (reset : bool)
    (particles : list particle) (rho : Z * Z * Z -> R) : Z * Z * Z -> R :=
  foldl (deposit_particle q order)
        (if reset then (fun _ => 0) else rho) particles.

(** Modelled from the spec: [WarpXParticleContainer::sumParticleCharge]
    "returns the total charge for all the particles in this
    ParticleContainer": the sum of the weights times the charge of the
    species. *)
Definition sumParticleCharge (q : R) (particles : list particle) : R :=
  foldr (fun p t => wp p + t) 0 particles * q.

(** The charge held by the cells of a mesh. *)
Definition mesh_charge (mesh : list (Z * Z * Z)) (rho : Z * Z * Z -> R) : R :=
  foldr (fun c t => rho c + t) 0 mesh.

(** The mesh has room for every particle: each cell a particle
    deposits into, guard cells included, is a cell of the mesh. *)
Definition covers (mesh : list (Z * Z * Z)) (q : R) (order : shape_order)
    (particles : list particle) : Prop :=
  forall p cv, p ∈ particles -> cv ∈ contributions q order p -> fst cv ∈ mesh.

End Deposit.

(** The sum of [h x] over the elements [x] of a list. *)
Definition sumf {A : Type} (h : A -> R) (l : list A) : R :=
  foldr (fun x t => (h x + t)%R) 0%R l.

End Deposition.

(** ** FieldSolver/SpectralSolver/SpectralAlgorithms/PsatdAlgorithmRZ.H *)

Module Psatd.
Section Solver.

(** The spectral grid ([kr] and the modified [kz] vectors), the
    spectral fields and the coefficient arrays [C_coef], [S_ck_coef],
    [X1_coef] ... are kept abstract, and so are the formulas that fill
    the coefficients and that update one mode. *)
Variable KVector Fields Coefficients : Type.
Variable compute_coefficients : KVector -> KVector -> R -> Coefficients.
Variable update_fields : Coefficients -> Fields -> Fields.

(** [SpectralFieldDataRZ]: the fields in spectral space, and the
    radial wave numbers of the transform that produced them. *)
Record SpectralFieldDataRZ : Type := mkFieldData {
  fields : Fields;
  kr : KVector
}.

(** The members of [PsatdAlgorithmRZ] that take part in the push. *)
Record PsatdAlgorithmRZ : Type := mkPsatd {
  modified_kz_vec : KVector;
  coefficients_initialized : bool;
  m_dt : R;
  coef : Coefficients
}.

(** The constructor saves [dt_step] and allocates the coefficient
    arrays, whose content [blank] is not yet meaningful. *)
Definition new_PsatdAlgorithmRZ (kz : KVector) (dt_step : R)
    (blank : Coefficients) : PsatdAlgorithmRZ :=
  mkPsatd kz false dt_step blank.

(** Modelled from the spec: [InitializeSpectralCoefficients] is
    declared in PsatdAlgorithmRZ.H and defined in a file that is not
    part of the sources.  The coefficients are derived from the
    discretized k-vectors and from the time step saved in [m_dt]. *)
Definition InitializeSpectralCoefficients (alg : PsatdAlgorithmRZ)
    (f : SpectralFieldDataRZ) : PsatdAlgorithmRZ :=
  mkPsatd (modified_kz_vec alg) (coefficients_initialized alg) (m_dt alg)
          (compute_coefficients (kr f) (modified_kz_vec alg) (m_dt alg)).

(** Modelled from the spec: [pushSpectralFields] is declared in
    PsatdAlgorithmRZ.H and defined in a file that is not part of the
    sources.  The coefficients are computed on first use, cached in
    the solver for its lifetime, and applied mode by mode. *)
Definition pushSpectralFields (alg : PsatdAlgorithmRZ)
    (f : SpectralFieldDataRZ) : PsatdAlgorithmRZ * SpectralFieldDataRZ :=
  let alg' :=
    if coefficients_initialized alg then alg
    else
      let a := InitializeSpectralCoefficients alg f in
      mkPsatd (modified_kz_vec a) true (m_dt a) (coef a) in
  (alg', mkFieldData (update_fields (coef alg') (fields f)) (kr f)).

(** The coefficients held by a solver, once built, are those of its
    time step and of the grid [k], [kz]. *)
Definition cache_valid (k kz : KVector) (dt : R)
    (alg : PsatdAlgorithmRZ) : Prop :=
  modified_kz_vec alg = kz /\ m_dt alg = dt /\
  (coefficients_initialized alg = true ->
   coef alg = compute_coefficients k kz dt).

(** The solver after it has advanced the fields [fs], one after the
    other. *)
Definition after_pushes (alg : PsatdAlgorithmRZ)
    (fs : list SpectralFieldDataRZ) : PsatdAlgorithmRZ :=
  foldl (fun a g => fst (pushSpectralFields a g)) alg fs.

End Solver.

Arguments mkFieldData {_ _} _ _.
Arguments fields {_ _} _.
Arguments kr {_ _} _.
Arguments mkPsatd {_ _} _ _ _ _.
Arguments modified_kz_vec {_ _} _.
Arguments coefficients_initialized {_ _} _.
Arguments m_dt {_ _} _.
Arguments coef {_ _} _.
Arguments new_PsatdAlgorithmRZ {_ _} _ _ _.
Arguments InitializeSpectralCoefficients {_ _ _} _ _ _.
Arguments pushSpectralFields {_ _ _} _ _ _ _.
Arguments after_pushes {_ _ _} _ _ _ _.
Arguments cache_valid {_ _} _ _ _ _ _.

End Psatd.

(** ** Diagnostics/BTDiagnostics.cpp *)

Module BTD.

(** The per-snapshot bookkeeping vectors of [BTDiagnostics].  The
    floating-point geometry of the snapshots (lab-frame domains and
    z-positions) enters the integer bookkeeping only through
    [GetZSliceInDomainFlag] and [k_index_zlab]; both are handed to
    [UpdateBufferData] as oracles. *)
Record BTDiagnostics : Type := mkBTD {
  m_num_buffers : nat;
  m_buffer_size : Z;
  m_snapshot_full : list Z;
  m_lastValidZSlice : list Z;
  m_buffer_counter : list Z;
  m_buffer_flush_counter : list Z
}.

(** [v[i] = x] on an [amrex::Vector<int>]; out of range is undefined
    behaviour, rendered as [None]. *)
Definition vec_set (v : list Z) (i : nat) (x : Z) : option (list Z) :=
  if decide (i < length v)%nat then Some (<[i := x]> v) else None.

Definition set_snapshot_full (bt : BTDiagnostics) (v : list Z) : BTDiagnostics :=
  mkBTD (m_num_buffers bt) (m_buffer_size bt) v (m_lastValidZSlice bt)
        (m_buffer_counter bt) (m_buffer_flush_counter bt).

Definition set_lastValidZSlice (bt : BTDiagnostics) (v : list Z) : BTDiagnostics :=
  mkBTD (m_num_buffers bt) (m_buffer_size bt) (m_snapshot_full bt) v
        (m_buffer_counter bt) (m_buffer_flush_counter bt).

Definition set_buffer_counter (bt : BTDiagnostics) (v : list Z) : BTDiagnostics :=
  mkBTD (m_num_buffers bt) (m_buffer_size bt) (m_snapshot_full bt)
        (m_lastValidZSlice bt) v (m_buffer_flush_counter bt).

Definition set_buffer_flush_counter (bt : BTDiagnostics) (v : list Z) : BTDiagnostics :=
  mkBTD (m_num_buffers bt) (m_buffer_size bt) (m_snapshot_full bt)
        (m_lastValidZSlice bt) (m_buffer_counter bt) v.

(** [DerivedInitData]: the vectors are resized to [m_num_buffers] and
    the two status vectors are zeroed.  It runs once, when the
    diagnostics object is set up, and produces the state every later
    operation starts from. *)
Definition DerivedInitData (num_buffers : nat) (buffer_size : Z) : BTDiagnostics :=
  mkBTD num_buffers buffer_size
        (replicate num_buffers 0) (replicate num_buffers 0)
        (resize num_buffers 0 []) (resize num_buffers 0 []).

Section Header.

(** The helpers below are declared inline in BTDiagnostics.H, which is
    not part of the sources at hand.  The two queries are arbitrary
    functions of the state; the two mutators act on the counter vector
    their name designates. *)
Variable buffer_full : BTDiagnostics -> nat -> bool.
Variable buffer_empty : BTDiagnostics -> nat -> bool.
Variable ResetBufferCounter : list Z -> nat -> option (list Z).
Variable IncrementBufferFlushCounter : list Z -> nat -> option (list Z).

(** [BTDiagnostics::DoDump] *)
Definition DoDump (bt : BTDiagnostics) (step : Z) (i_buffer : nat)
    (force_flush : bool) : option bool :=
  if step <? 0 then Some false
  else
    full ← m_snapshot_full bt !! i_buffer;
    if full =? 1 then Some false
    else if buffer_full bt i_buffer then Some true
    else
      lastz ← m_lastValidZSlice bt !! i_buffer;
      if lastz =? 1 then Some true
      else if force_flush && negb (buffer_empty bt i_buffer) then Some true
      else Some false.

(** [BTDiagnostics::DoComputeAndPack] *)
Definition DoComputeAndPack (step : Z) (force_flush : bool) : bool :=
  if step <? 0 then false
  else if force_flush then false
  else true.

(** [BTDiagnostics::InitializeBufferData], its integer part: both
    counters of the snapshot restart from zero. *)
Definition InitializeBufferData (i_buffer : nat) (bt : BTDiagnostics)
    : option BTDiagnostics :=
  fl ← vec_set (m_buffer_flush_counter bt) i_buffer 0;
  ct ← vec_set (m_buffer_counter bt) i_buffer 0;
  Some (set_buffer_counter (set_buffer_flush_counter bt fl) ct).

(** One iteration of the innermost loop of [UpdateBufferData]. *)
Definition UpdateBufferData_body (ZSliceInDomain : nat -> bool)
    (k_index_zlab : nat -> Z) (bt : BTDiagnostics) (i_buffer : nat)
    : option BTDiagnostics :=
  bt1 ← (if ZSliceInDomain i_buffer then
           c ← m_buffer_counter bt !! i_buffer;
           ct ← vec_set (m_buffer_counter bt) i_buffer (c + 1);
           Some (set_buffer_counter bt ct)
         else Some bt);
  if k_index_zlab i_buffer =? 0 then
    lv ← vec_set (m_lastValidZSlice bt1) i_buffer 1;
    Some (set_lastValidZSlice bt1 lv)
  else Some bt1.

Fixpoint for_buffers (body : BTDiagnostics -> nat -> option BTDiagnostics)
    (idxs : list nat) (bt : BTDiagnostics) : option BTDiagnostics :=
  match idxs with
  | [] => Some bt
  | i :: rest => bt' ← body bt i; for_buffers body rest bt'
  end.

(** [BTDiagnostics::UpdateBufferData]: [nlev_output] and
    [num_BT_functors] are both 1, so the three nested loops run the
    body once for every snapshot. *)
Definition UpdateBufferData (ZSliceInDomain : nat -> bool)
    (k_index_zlab : nat -> Z) (bt : BTDiagnostics) : option BTDiagnostics :=
  for_buffers (UpdateBufferData_body ZSliceInDomain k_index_zlab)
              (seq 0 (m_num_buffers bt)) bt.

(** [BTDiagnostics::SetSnapshotFullStatus] *)
Definition SetSnapshotFullStatus (i_buffer : nat) (bt : BTDiagnostics)
    : option BTDiagnostics :=
  full ← m_snapshot_full bt !! i_buffer;
  if full =? 1 then Some bt
  else
    lastz ← m_lastValidZSlice bt !! i_buffer;
    if lastz =? 1 then
      sf ← vec_set (m_snapshot_full bt) i_buffer 1;
      Some (set_snapshot_full bt sf)
    else Some bt.

(** [BTDiagnostics::Flush], its effect on the bookkeeping: the status
    is refreshed, the buffer is written out (not modelled), and the
    two counters are reset and incremented. *)
Definition Flush (i_buffer : nat) (bt : BTDiagnostics) : option BTDiagnostics :=
  bt1 ← SetSnapshotFullStatus i_buffer bt;
  ct ← ResetBufferCounter (m_buffer_counter bt1) i_buffer;
  let bt2 := set_buffer_counter bt1 ct in
  fl ← IncrementBufferFlushCounter (m_buffer_flush_counter bt2) i_buffer;
  Some (set_buffer_flush_counter bt2 fl).

(** The operations that act on an initialised diagnostics object. *)
Inductive step : BTDiagnostics -> BTDiagnostics -> Prop :=
  | step_InitializeBufferData i bt bt' :
      InitializeBufferData i bt = Some bt' -> step bt bt'
  | step_UpdateBufferData zs kz bt bt' :
      UpdateBufferData zs kz bt = Some bt' -> step bt bt'
  | step_SetSnapshotFullStatus i bt bt' :
      SetSnapshotFullStatus i bt = Some bt' -> step bt bt'
  | step_Flush i bt bt' :
      Flush i bt = Some bt' -> step bt bt'.

End Header.

(** The helpers as their names and the comments at their call sites
    describe them; used to run the model on concrete states. *)
Definition buffer_full_std (bt : BTDiagnostics) (i : nat) : bool :=
  match m_buffer_counter bt !! i with
  | Some c => c =? m_buffer_size bt
  | None => false
  end.

Definition buffer_empty_std (bt : BTDiagnostics) (i : nat) : bool :=
  match m_buffer_counter bt !! i with
  | Some c => c =? 0
  | None => false
  end.

Definition ResetBufferCounter_std (v : list Z) (i : nat) : option (list Z) :=
  vec_set v i 0.

Definition IncrementBufferFlushCounter_std (v : list Z) (i : nat)
    : option (list Z) :=
  c ← v !! i; vec_set v i (c + 1).

(** The shape of the status vectors that every operation keeps, from
    the set-up on: one entry per snapshot, and a full snapshot has its
    last valid slice recorded. *)
Definition status_ok (n : nat) (bt : BTDiagnostics) : Prop :=
  m_num_buffers bt = n /\
  length (m_snapshot_full bt) = n /\
  length (m_lastValidZSlice bt) = n /\
  forall i, m_snapshot_full bt !! i = Some 1 ->
            m_lastValidZSlice bt !! i = Some 1.

End BTD.

(** ** The range of [int] *)

(** The range of a C++ [int] where a result can leave it, and [a + b]
    on two of them: a sum outside the range is a signed overflow, which
    C++ leaves undefined ([None]). *)
Definition INT_MIN : Z := -2147483648.
Definition INT_MAX : Z := 2147483647.

Definition int_add (a b : Z) : option Z :=
  if decide (INT_MIN <= a + b <= INT_MAX) then Some (a + b) else None.

(** ** Diagnostics/BTDiagnostics.cpp: particle counters and index boxes *)

Module BTDBuffers.
Import amrex.

(** [m_totalParticles_flushed_already] and [m_totalParticles_in_buffer]:
    for every snapshot, one counter per species. *)
Record counters : Type := mkCounters {
  m_totalParticles_flushed_already : list (list Z);
  m_totalParticles_in_buffer : list (list Z)
}.

(** The loop of [UpdateTotalParticlesFlushed], from species [isp] on,
    over the [n] remaining species: [flushed[isp] += in_buffer[isp]],
    the counters being of type [int]. *)
Fixpoint add_in_buffer (n isp : nat) (flushed in_buffer : list Z)
    : option (list Z) :=
  match n with
  | O => Some flushed
  | S n' =>
      f ← flushed !! isp;
      b ← in_buffer !! isp;
      s ← int_add f b;
      add_in_buffer n' (S isp) (<[isp := s]> flushed) in_buffer
  end.

(** [BTDiagnostics::UpdateTotalParticlesFlushed] *)
Definition UpdateTotalParticlesFlushed (i_buffer : nat) (c : counters)
    : option counters :=
  flushed ← m_totalParticles_flushed_already c !! i_buffer;
  in_buffer ← (if decide (length flushed = 0%nat) then Some []
               else m_totalParticles_in_buffer c !! i_buffer);
  flushed' ← add_in_buffer (length flushed) 0 flushed in_buffer;
  Some (mkCounters (<[i_buffer := flushed']> (m_totalParticles_flushed_already c))
                   (m_totalParticles_in_buffer c)).

(** [BTDiagnostics::ResetTotalParticlesInBuffer]: every counter of the
    snapshot is set to zero. *)
Definition ResetTotalParticlesInBuffer (i_buffer : nat) (c : counters)
    : option counters :=
  in_buffer ← m_totalParticles_in_buffer c !! i_buffer;
  Some (mkCounters (m_totalParticles_flushed_already c)
                   (<[i_buffer := replicate (length in_buffer) 0]>
                      (m_totalParticles_in_buffer c))).

(** The two calls as [Flush] makes them, one after the other. *)
Definition flush_counters (i_buffer : nat) (c : counters) : option counters :=
  c1 ← UpdateTotalParticlesFlushed i_buffer c;
  ResetTotalParticlesInBuffer i_buffer c1.

Definition sum_list (l : list Z) : Z := foldr Z.add 0 l.

(** [std::floor] and [std::ceil] followed by the conversion to [int]. *)
Definition floorZ (x : R) : Z := Int_part x.
Definition ceilZ (x : R) : Z := - Int_part (- x).

(** [Box::setSmall (dir, v)] and [Box::setBig (dir, v)] *)
Definition setSmall (dir : nat) (v : Z) (bx : Box) : Box :=
  mkBox (<[dir := v]> (smallEnd bx)) (bigEnd bx).
Definition setBig (dir : nat) (v : Z) (bx : Box) : Box :=
  mkBox (smallEnd bx) (<[dir := v]> (bigEnd bx)).

(** The number of points of a box along [dir]. *)
Definition Box_length (bx : Box) (dir : nat) : Z :=
  IntVect_get (bigEnd bx) dir - IntVect_get (smallEnd bx) dir + 1.

(** [DefineFieldBufferMultiFab]: the box of the buffer along the
    direction of the moving window, for the lab-frame index [k_lab]. *)
Definition buffer_box (dir : nat) (k_lab m_buffer_size : Z) (m_buffer_box : Box)
    : Box :=
  setBig dir k_lab (setSmall dir (k_lab - m_buffer_size + 1) m_buffer_box).

(** [DefineSnapshotGeometry]: the estimated number of buffers of a
    snapshot of [ncells] lab-frame cells, the number of cells of the
    snapshot, a whole number of buffers, and the box of the snapshot
    along the direction of the moving window. *)
Definition max_buffer_multifabs (ncells m_buffer_size : Z) : Z :=
  ceilZ (IZR ncells / IZR m_buffer_size).

Definition num_z_cells_in_snapshot (ncells m_buffer_size : Z) : Z :=
  max_buffer_multifabs ncells m_buffer_size * m_buffer_size.

Definition snapshot_box (dir : nat) (k_lab ncells m_buffer_size : Z)
    (m_snapshot_box : Box) : Box :=
  setBig dir k_lab
    (setSmall dir (k_lab - (num_z_cells_in_snapshot ncells m_buffer_size - 1))
       m_snapshot_box).

End BTDBuffers.

(** ** Source/Initialization/WarpXInitData.cpp *)

Module InitData.
Import amrex.

(** The block [i] of a direction cut into blocks of [sz] cells, the
    first [extra] blocks having one cell more: its lower and upper
    index, shifted by the lower end [domlo] of the domain. *)
Definition block_lo (sz extra domlo i : Z) : Z :=
  (if i <? extra then i * (sz + 1) else i * sz + extra) + domlo.

Definition block_hi (sz extra domlo i : Z) : Z :=
  (if i <? extra
   then (if i <? extra then i * (sz + 1) else i * sz + extra) + (sz + 1) - 1
   else (if i <? extra then i * (sz + 1) else i * sz + extra) + sz - 1)
  + domlo.

(** The index [x] lies in the block [i]. *)
Definition in_block (sz extra domlo x i : Z) : bool :=
  (block_lo sz extra domlo i <=? x) && (x <=? block_hi sz extra domlo i).

(** [for (int i = 0; i < n; ++i)] *)
Definition upto (n : Z) : list Z := Z.of_nat <$> seq 0 (Z.to_nat n).

(** [Box::size]: the number of points along each direction. *)
Definition Box_size (bx : Box) : IntVect :=
  imap (fun d hi => hi - IntVect_get (smallEnd bx) d + 1) (bigEnd bx).

Section PostProcessBaseGrids.
Variable dim : WARPX_DIM.

(** The list of boxes built by the nested loops of
    [PostProcessBaseGrids]: the loop over [k] exists in a 3D build
    only, the loop over [j] in builds with two directions or more. *)
Definition base_grids (numprocs domlo sz extra : IntVect) : list Box :=
  let blo d i := block_lo (IntVect_get sz d) (IntVect_get extra d)
                          (IntVect_get domlo d) i in
  let bhi d i := block_hi (IntVect_get sz d) (IntVect_get extra d)
                          (IntVect_get domlo d) i in
  match dim with
  | DIM_3D =>
      k ← upto (IntVect_get numprocs 2);
      j ← upto (IntVect_get numprocs 1);
      i ← upto (IntVect_get numprocs 0);
      [mkBox [blo 0%nat i; blo 1%nat j; blo 2%nat k]
             [bhi 0%nat i; bhi 1%nat j; bhi 2%nat k]]
  | DIM_XZ | DIM_RZ =>
      j ← upto (IntVect_get numprocs 1);
      i ← upto (IntVect_get numprocs 0);
      [mkBox [blo 0%nat i; blo 1%nat j] [bhi 0%nat i; bhi 1%nat j]]
  | DIM_1D_Z =>
      i ← upto (IntVect_get numprocs 0);
      [mkBox [blo 0%nat i] [bhi 0%nat i]]
  end.

(** [WarpX::PostProcessBaseGrids].  [numprocs != 0] holds when some
    component is not zero; the division of [domlen] by [numprocs] is
    the integer division of C++, component by component, and is
    undefined ([None]) when a component of [numprocs] is zero. *)
Definition PostProcessBaseGrids (numprocs : IntVect) (dom : Box)
    (ba0 : BoxArray) : option BoxArray :=
  if forallb (fun n => n =? 0) numprocs then Some ba0
  else if existsb (fun n => n =? 0) numprocs then None
  else
    let domlo := smallEnd dom in
    let domlen := Box_size dom in
    let sz := imap (fun d len => Z.quot len (IntVect_get numprocs d)) domlen in
    let extra :=
      imap (fun d len => len - IntVect_get sz d * IntVect_get numprocs d)
           domlen in
    Some (mkBoxArray (base_grids numprocs domlo sz extra)
                     (IntVect_const dim 0)).

End PostProcessBaseGrids.

(** [static_cast<int>] of a floating-point number: the fractional
    part is dropped, and the conversion of a value that does not then
    fit an [int] is undefined ([None]). *)
Definition truncZ (x : R) : Z :=
  if Rle_dec 0 x then BTDBuffers.floorZ x else BTDBuffers.ceilZ x.

Definition static_cast_int (x : R) : option Z :=
  if decide (INT_MIN <= truncZ x <= INT_MAX) then Some (truncZ x) else None.

Definition moving_window_not_along_z : string :=
  "Can use zmax_plasma_to_compute_max_step only if moving window along z. TODO: all directions.".

Definition boost_not_along_z : string :=
  "Can use zmax_plasma_to_compute_max_step in boosted frame only if warpx.boost_direction = z. TODO: all directions.".

(** What [computeMaxStepBoostAccelerator] reads: the direction of the
    moving window and its speed, the boost and its direction (three
    integers: the code compares them with integer literals, here and
    in BTDiagnostics.cpp), the end of the plasma in the lab frame, and
    the time step of every level. *)
Record accelerator : Type := mkAccelerator {
  moving_window_dir : Z;
  moving_window_v : R;
  gamma_boost : R;
  beta_boost : R;
  boost_direction : Z * Z * Z;
  zmax_plasma_to_compute_max_step : R;
  do_subcycling : bool;
  dt : list R;
  maxLevel : nat
}.

Section BoostAccelerator.
Local Open Scope R_scope.

(** [WARPX_ZINDEX] and [PhysConst::c], defined in headers of their
    own. *)
Variable WARPX_ZINDEX : Z.
Variable c : R.

(** The arithmetic of [amrex::Real] on the way to the integer result:
    each operation returns its exact result rounded to a number of the
    floating-point format.  The rounding decides the integer that
    comes out, so it is not replaced by the exact operation; it is
    left open.  The unary minus is exact. *)
Variable Real_sub Real_mul Real_div : R -> R -> R.

(** The test on the direction of the boost: the integers are
    converted to floating point for the comparison. *)
Definition boost_along_z (w : accelerator) : bool :=
  match boost_direction w with
  | (b0, b1, b2) =>
      if Rlt_dec (IZR ((b0 - 0) * (b0 - 0) + (b1 - 0) * (b1 - 0)
                       + (b2 - 1) * (b2 - 1))) (1 / 10 ^ 12)
      then true else false
  end.

(** [WarpX::computeMaxStepBoostAccelerator], for a domain whose lower
    end along z is [zmin_domain_boost]; the result is the new value of
    [max_step].  The two undefined behaviours of the last statement,
    a read outside [dt] and a quotient that does not fit an [int], are
    both reported as [OutOfBounds]. *)
Definition computeMaxStepBoostAccelerator (zmin_domain_boost : R)
    (w : accelerator) : outcome Z :=
  do _ <- WARPX_ALWAYS_ASSERT_WITH_MESSAGE
            (moving_window_dir w =? WARPX_ZINDEX)%Z moving_window_not_along_z;
  do _ <- (if Rlt_dec 1 (gamma_boost w)
           then WARPX_ALWAYS_ASSERT_WITH_MESSAGE (boost_along_z w)
                  boost_not_along_z
           else Done tt);
  let len_plasma_boost :=
    Real_div (zmax_plasma_to_compute_max_step w) (gamma_boost w) in
  let v_plasma_boost := Real_mul (- beta_boost w) c in
  let interaction_time_boost :=
    Real_div (Real_sub len_plasma_boost zmin_domain_boost)
             (Real_sub (moving_window_v w) v_plasma_boost) in
  match dt w !! (if do_subcycling w then 0%nat else maxLevel w) with
  | Some dt_lev =>
      match static_cast_int (Real_div interaction_time_boost dt_lev) with
      | Some computed_max_step => Done computed_max_step
      | None => Fail OutOfBounds
      end
  | None => Fail OutOfBounds
  end.

End BoostAccelerator.

(** [a.allGT(b)]: greater in every component. *)
Definition IntVect_allGT (a b : IntVect) : bool :=
  forallb (fun xy => snd xy <? fst xy) (zip a b).

(** [Box::enclosedCells] followed by [size]: the number of cells of
    a box of index type [typ] along each direction. *)
Definition enclosedCells_size (typ : IntVect) (bx : Box) : IntVect :=
  imap (fun d hi => (hi - IntVect_get typ d) - IntVect_get (smallEnd bx) d + 1)
       (bigEnd bx).

(** How [CheckGuardCells] ends: normally, or with [amrex::Abort] and a
    message that gives the guard cells [gc] and the valid cells [vc]
    of the offending box. *)
Inductive guard_check : Type :=
  | GuardCellsOk
  | TooManyGuardCells (gc vc : IntVect).

(** [WarpX::CheckGuardCells (mf)], the loop over the boxes of [mf]. *)
Fixpoint CheckGuardCells_boxes (typ gc : IntVect) (bxs : list Box)
    : guard_check :=
  match bxs with
  | [] => GuardCellsOk
  | bx :: rest =>
      let vc := enclosedCells_size typ bx in
      if negb (IntVect_allGT vc gc) then TooManyGuardCells gc vc
      else CheckGuardCells_boxes typ gc rest
  end.

Definition CheckGuardCells (mf : MultiFab) : guard_check :=
  CheckGuardCells_boxes (ixType (boxArray mf)) (nGrowVect mf)
                        (boxes (boxArray mf)).

End InitData.

(** ** Concrete inputs *)

Module Examples.
Import amrex.

(** A concrete run: two snapshots; the last slice of snapshot 0 is
    filled, the snapshot is flushed (which marks it full), and the
    bookkeeping then goes on. *)
Definition btd_run0 : BTD.BTDiagnostics := BTD.DerivedInitData 2 4.
Definition btd_run1 : BTD.BTDiagnostics :=
  BTD.mkBTD 2 4 [1; 0] [1; 0] [0; 0] [1; 0].
Definition btd_run2 : BTD.BTDiagnostics :=
  BTD.mkBTD 2 4 [1; 0] [1; 0] [1; 1] [1; 0].

(** An input deck that gives species "beam" seven parameters. *)
Definition seven_params (prefix name : string) (v : list R) : option (list R) :=
  if decide (prefix = "beam" /\ name = "custom_profile_params")
  then Some [1; 2; 3; 4; 5; 6; 7]%R else None.

(** A container with the four compile-time attributes of a Cartesian
    build and one run-time attribute. *)
Definition pc_with_optical_depth : ParticleComps.WarpXParticleContainer :=
  ParticleComps.AddRealComp 4 "opticalDepthQSR" true
    (ParticleComps.mkPC
       (<["w" := 0]> (<["ux" := 1]> (<["uy" := 2]> (<["uz" := 3]> ∅))))
       ∅ ∅ ∅ 0 0 [] [] []).

(** An averaging stencil: along each direction one fine point, or two
    neighbouring ones with equal weights, depending on the staggerings
    and on the ratio. *)
Definition equal_weight_points (sf sc cr ic : Z) : Z * Z :=
  if cr =? 1
  then (1 + Z.abs (sf - sc), ic - sc * (1 - sf))
  else (2 - sf, ic * cr + cr / 2 * (1 - sc) - (1 - sf)).

Definition equal_weight_stencil (sf sc cr : Z * Z * Z) (i j k : Z)
    : list (R * (Z * Z * Z)) :=
  match sf, sc, cr with
  | (sfx, sfy, sfz), (scx, scy, scz), (crx, cry, crz) =>
      let (numx, imin) := equal_weight_points sfx scx crx i in
      let (numy, jmin) := equal_weight_points sfy scy cry j in
      let (numz, kmin) := equal_weight_points sfz scz crz k in
      kref ← seq 0 (Z.to_nat numz);
      jref ← seq 0 (Z.to_nat numy);
      iref ← seq 0 (Z.to_nat numx);
      [((1 / IZR numx * (1 / IZR numy) * (1 / IZR numz))%R,
        (imin + Z.of_nat iref, jmin + Z.of_nat jref, kmin + Z.of_nat kref))]
  end.

(** The box calculus of AMReX on small examples: a conversion moves
    the upper end by the change of index type, a coarsening divides
    both ends (rounding a nodal upper end up), and a box array is
    coarsenable when the cells of each box split evenly. *)
Definition Box_convert_std (from to : IntVect) (bx : Box) : Box :=
  mkBox (smallEnd bx) (IntVect_add (bigEnd bx) (IntVect_sub to from)).

Definition Box_coarsen_std (typ ratio : IntVect) (bx : Box) : Box :=
  mkBox
    (imap (fun m x => x / IntVect_get ratio m) (smallEnd bx))
    (imap (fun m x =>
             x / IntVect_get ratio m +
             (if (IntVect_get typ m =? 1) &&
                 negb (x mod IntVect_get ratio m =? 0)
              then 1 else 0)) (bigEnd bx)).

Definition coarsenable_std (ba : BoxArray) (ratio : IntVect) : bool :=
  forallb
    (fun bx =>
       forallb
         (fun m =>
            (IntVect_get (smallEnd bx) m mod IntVect_get ratio m =? 0) &&
            ((IntVect_get (bigEnd bx) m + 1 - IntVect_get (ixType ba) m)
               mod IntVect_get ratio m =? 0))
         (seq 0 (length ratio)))
    (boxes ba).

(** Two levels of a Cartesian 2D run with ratio 2: a cell-centred
    fine field of ones on 4 x 4 cells, and its cell-centred parent on
    2 x 2 cells; a nodal field on the parent level. *)
Definition fine_ones : MultiFab :=
  mkMultiFab (mkBoxArray [mkBox [0; 0] [3; 3]] [0; 0]) [0%nat] 1 [0; 0]
             (fun _ _ _ _ _ => 1%R).

Definition coarse_zero : MultiFab :=
  mkMultiFab (mkBoxArray [mkBox [0; 0] [1; 1]] [0; 0]) [0%nat] 1 [0; 0]
             (fun _ _ _ _ _ => 0%R).

Definition coarse_nodal : MultiFab :=
  mkMultiFab (mkBoxArray [mkBox [0; 0] [2; 2]] [1; 1]) [0%nat] 1 [0; 0]
             (fun _ _ _ _ _ => 0%R).

Definition blank_fab : nat -> Array4 := fun _ _ _ _ _ => 0%R.

(** One particle of weight 2 half-way between two grid points along x
    and exactly on a grid point along z, and a mesh of 2 x 3 points
    around it. *)
Definition boundary_particle : Deposition.particle :=
  Deposition.mkParticle (1 / 2) 0 1 2.

Definition small_mesh : list (Z * Z * Z) :=
  [(0, 0, 0); (0, 0, 1); (0, 0, 2); (1, 0, 0); (1, 0, 1); (1, 0, 2)].

(** A toy spectral solver: one mode, one coefficient. *)
Definition toy_coefficients (k kz : Z) (dt : R) : R := (IZR (k + kz) * dt)%R.
Definition toy_update (c f : R) : R := (c * f)%R.

(** An input deck that gives species "beam" three parameters, and an
    array of six zeros for them. *)
Definition three_params (prefix name : string) (v : list R) : option (list R) :=
  if decide (prefix = "beam" /\ name = "custom_profile_params")
  then Some [1; 2; 3]%R else None.

Definition six_zeros : list R := [0; 0; 0; 0; 0; 0]%R.

(** A container with one compile-time attribute and no run-time one. *)
Definition pc_one_attribute : ParticleComps.WarpXParticleContainer :=
  ParticleComps.mkPC {["w" := 0]} ∅ ∅ ∅ 0 0 [] [] [].

(** Two snapshots, the first with two slices in its buffer and its
    last valid slice recorded, before it is flushed; and the
    bookkeeping after one call of [UpdateBufferData] on a fresh
    object, every slice being in the domain and at lab-frame index 0. *)
Definition btd_last_slice : BTD.BTDiagnostics :=
  BTD.mkBTD 2 4 [0; 0] [1; 0] [2; 0] [0; 0].

Definition btd_after_update : BTD.BTDiagnostics :=
  BTD.mkBTD 2 4 [0; 0] [1; 1] [1; 1] [0; 0].

(** One snapshot with two species: 5 and 7 particles flushed, 2 and 3
    in the buffer. *)
Definition two_species : BTDBuffers.counters :=
  BTDBuffers.mkCounters [[5; 7]] [[2; 3]].

(** A 2D domain of 7 x 8 cells, and a box of 10 x 10 cells. *)
Definition domain_7x8 : Box := mkBox [0; 0] [6; 7].
Definition box_10x10 : Box := mkBox [0; 0] [9; 9].

(** A boosted-frame run on one level, with [gamma_boost = 2] and a
    plasma that ends at z = 10 in the lab frame, whose boost is along
    x. *)
Definition sideways_boost : InitData.accelerator :=
  InitData.mkAccelerator 1 1 2 (1 / 2) (1, 0, 0) 10 false [1%R] 0.

(** A nodal-in-x destination and a cell-centred source of the same
    level with two guard cells along z and none along x: the
    interpolation to the nodes needs one guard cell along x. *)
Definition src_wide_z : MultiFab :=
  mkMultiFab (mkBoxArray [mkBox [0; 0] [3; 3]] [0; 0]) [0%nat] 1 [0; 2]
             (fun _ _ _ _ _ => 1%R).

Definition dst_nodal_x : MultiFab :=
  mkMultiFab (mkBoxArray [mkBox [0; 0] [4; 3]] [1; 0]) [0%nat] 1 [0; 0]
             (fun _ _ _ _ _ => 0%R).

End Examples.

(* ================================================================== *)
(** * Part II: properties                                              *)
(* ================================================================== *)

Import Examples.

(** ** Back-transformed diagnostics: a full snapshot stays full *)

Section BTD_properties.
Import BTD.

Variable buffer_full : BTDiagnostics -> nat -> bool.
Variable buffer_empty : BTDiagnostics -> nat -> bool.
Variable ResetBufferCounter : list Z -> nat -> option (list Z).
Variable IncrementBufferFlushCounter : list Z -> nat -> option (list Z).

Local Abbreviation step :=
  (BTD.step ResetBufferCounter IncrementBufferFlushCounter).
Local Abbreviation DoDump := (BTD.DoDump buffer_full buffer_empty).

Lemma vec_set_lookup_ne (v v' : list Z) (i j : nat) (x : Z) :
  vec_set v i x = Some v' -> i <> j -> v' !! j = v !! j.
Proof.
  unfold vec_set. case_decide; [|done].
  intros [= <-] Hne. by apply list_lookup_insert_ne.
Qed.

Lemma vec_set_lookup_eq (v v' : list Z) (i : nat) (x : Z) :
  vec_set v i x = Some v' -> v' !! i = Some x.
Proof.
  unfold vec_set. case_decide; [|done].
  intros [= <-]. by apply list_lookup_insert_eq.
Qed.

Lemma InitializeBufferData_snapshot_full i bt bt' :
  InitializeBufferData i bt = Some bt' ->
  m_snapshot_full bt' = m_snapshot_full bt.
Proof.
  unfold InitializeBufferData. intros H.
  destruct (vec_set (m_buffer_flush_counter bt) i 0) as [fl|]; [|done].
  simpl in H.
  destruct (vec_set (m_buffer_counter bt) i 0) as [ct|]; [|done].
  simpl in H. by injection H as <-.
Qed.

Lemma UpdateBufferData_body_snapshot_full zs kz bt i bt' :
  UpdateBufferData_body zs kz bt i = Some bt' ->
  m_snapshot_full bt' = m_snapshot_full bt.
Proof.
  unfold UpdateBufferData_body. intros H.
  destruct (zs i).
  - destruct (m_buffer_counter bt !! i) as [c|]; [|done]. simpl in H.
    destruct (vec_set (m_buffer_counter bt) i (c + 1)) as [ct|]; [|done].
    simpl in H. destruct (kz i =? 0).
    + destruct (vec_set _ i 1) as [lv|]; [|done].
      simpl in H. by injection H as <-.
    + by injection H as <-.
  - simpl in H. destruct (kz i =? 0).
    + destruct (vec_set _ i 1) as [lv|]; [|done].
      simpl in H. by injection H as <-.
    + by injection H as <-.
Qed.

Lemma for_buffers_snapshot_full body :
  (forall bt i bt', body bt i = Some bt' ->
     m_snapshot_full bt' = m_snapshot_full bt) ->
  forall idxs bt bt', for_buffers body idxs bt = Some bt' ->
     m_snapshot_full bt' = m_snapshot_full bt.
Proof.
  intros Hbody. induction idxs as [|i rest IH]; intros bt bt' H; simpl in H.
  - by injection H as <-.
  - destruct (body bt i) as [bt1|] eqn:E; [|done]. simpl in H.
    rewrite (IH _ _ H). eauto.
Qed.

Lemma SetSnapshotFullStatus_keeps i j bt bt' :
  SetSnapshotFullStatus i bt = Some bt' ->
  m_snapshot_full bt !! j = Some 1 ->
  m_snapshot_full bt' !! j = Some 1.
Proof.
  unfold SetSnapshotFullStatus. intros H Hj.
  destruct (m_snapshot_full bt !! i) as [full|] eqn:Ei; [|done]. simpl in H.
  destruct (full =? 1).
  { by injection H as <-. }
  destruct (m_lastValidZSlice bt !! i) as [lastz|]; [|done]. simpl in H.
  destruct (lastz =? 1).
  - destruct (vec_set (m_snapshot_full bt) i 1) as [sf|] eqn:Es; [|done].
    simpl in H. injection H as <-. simpl.
    destruct (decide (i = j)) as [->|Hne].
    + eapply vec_set_lookup_eq; eauto.
    + erewrite vec_set_lookup_ne; eauto.
  - by injection H as <-.
Qed.

Lemma Flush_keeps i j bt bt' :
  Flush ResetBufferCounter IncrementBufferFlushCounter i bt = Some bt' ->
  m_snapshot_full bt !! j = Some 1 ->
  m_snapshot_full bt' !! j = Some 1.
Proof.
  unfold Flush. intros H Hj.
  destruct (SetSnapshotFullStatus i bt) as [bt1|] eqn:E1; [|done]. simpl in H.
  destruct (ResetBufferCounter _ i) as [ct|]; [|done]. simpl in H.
  destruct (IncrementBufferFlushCounter _ i) as [fl|]; [|done]. simpl in H.
  injection H as <-. simpl. eapply SetSnapshotFullStatus_keeps; eauto.
Qed.

Lemma step_keeps_full bt bt' j :
  step bt bt' ->
  m_snapshot_full bt !! j = Some 1 ->
  m_snapshot_full bt' !! j = Some 1.
Proof.
  intros Hstep Hj. destruct Hstep as [i bt bt' H|zs kz bt bt' H|i bt bt' H|i bt bt' H].
  - by rewrite (InitializeBufferData_snapshot_full _ _ _ H).
  - unfold UpdateBufferData in H.
    rewrite (for_buffers_snapshot_full _
               (UpdateBufferData_body_snapshot_full zs kz) _ _ _ H). done.
  - eapply SetSnapshotFullStatus_keeps; eauto.
  - eapply Flush_keeps; eauto.
Qed.

Lemma steps_keep_full bt bt' j :
  rtc step bt bt' ->
  m_snapshot_full bt !! j = Some 1 ->
  m_snapshot_full bt' !! j = Some 1.
Proof.
  induction 1 as [|bt bt1 bt2 H1 _ IH]; [done|].
  intros Hj. apply IH. eapply step_keeps_full; eauto.
Qed.

Lemma DoDump_full bt i st ff :
  m_snapshot_full bt !! i = Some 1 -> DoDump bt st i ff = Some false.
Proof.
  intros Hi. unfold BTD.DoDump. destruct (st <? 0); [done|].
  rewrite Hi. reflexivity.
Qed.

(** C10.  Once [m_snapshot_full[i]] is 1 it is 1 after any sequence of
    operations on the diagnostics object, and in every such state
    [DoDump] answers [false] whatever the step and the force-flush
    flag; [DoDump] also answers [false] at every negative step, in any
    state and for any snapshot index. *)
Theorem full_snapshot_never_dumped_again :
  (forall bt bt' i,
     m_snapshot_full bt !! i = Some 1 ->
     rtc step bt bt' ->
     m_snapshot_full bt' !! i = Some 1 /\
     forall st ff, DoDump bt' st i ff = Some false) /\
  (forall bt st i ff, st < 0 -> DoDump bt st i ff = Some false).
Proof.
  split.
  - intros bt bt' i Hi Hsteps.
    assert (Hi' := steps_keep_full _ _ _ Hsteps Hi).
    split; [done|]. intros st ff. by apply DoDump_full.
  - intros bt st i ff Hneg. unfold BTD.DoDump.
    destruct (st <? 0) eqn:E; [done|]. lia.
Qed.

End BTD_properties.


Lemma full_snapshot_never_dumped_again_witness :
  (BTD.m_snapshot_full btd_run2 !! 0%nat = Some 1 /\
   forall st ff,
     BTD.DoDump BTD.buffer_full_std BTD.buffer_empty_std btd_run2 st 0 ff
     = Some false) /\
  BTD.DoDump BTD.buffer_full_std BTD.buffer_empty_std btd_run0 (-1) 1 true
  = Some false.
Proof.
  destruct (full_snapshot_never_dumped_again
              BTD.buffer_full_std BTD.buffer_empty_std
              BTD.ResetBufferCounter_std BTD.IncrementBufferFlushCounter_std)
    as [Hfull Hneg].
  split.
  - apply (Hfull btd_run1 btd_run2 0%nat).
    + reflexivity.
    + eapply rtc_l; [|apply rtc_refl].
      apply (BTD.step_UpdateBufferData _ _ (fun _ => true) (fun _ => 5)).
      reflexivity.
  - apply Hneg. lia.
Defined.

(** ** The position push *)

Section Pusher_properties.
Import Pusher.
Local Open Scope R_scope.

Variable c : R.

(** C3.  In every geometry and along every axis, [UpdatePosition]
    moves the particle by [u * inv_gamma * dt] with
    [inv_gamma = 1/sqrt(1 + (ux^2+uy^2+uz^2)/c^2)] if the axis is
    active in that geometry, and leaves the coordinate as it was if the
    axis is absent. *)
Theorem UpdatePosition_spec (dim : WARPX_DIM) (a : axis)
    (x y z ux uy uz dt : R) :
  let inv_gamma := 1 / sqrt (1 + (ux ^ 2 + uy ^ 2 + uz ^ 2) / c ^ 2) in
  component a (UpdatePosition dim c x y z ux uy uz dt) =
  if axis_active dim a
  then component a (x, y, z) + component a (ux, uy, uz) * inv_gamma * dt
  else component a (x, y, z).
Proof.
  intros inv_gamma. subst inv_gamma. unfold UpdatePosition, inv_c2.
  replace ((ux * ux + uy * uy + uz * uz) * (1 / (c * c)))
    with ((ux ^ 2 + uy ^ 2 + uz ^ 2) / c ^ 2).
  - destruct dim, a; reflexivity.
  - unfold Rdiv. simpl. rewrite !Rmult_1_r, Rmult_1_l. reflexivity.
Qed.

(** C4.  A particle at rest does not move: with [ux = uy = uz = 0]
    every coordinate is unchanged, for any time step and any starting
    position, in every geometry. *)
Theorem UpdatePosition_zero_momentum (dim : WARPX_DIM) (x y z dt : R) :
  UpdatePosition dim c x y z 0 0 0 dt = (x, y, z).
Proof.
  unfold UpdatePosition.
  destruct dim; simpl; repeat f_equal; ring.
Qed.

End Pusher_properties.

(** ** The custom density profile *)

Section CustomDensity_properties.
Import CustomDensity.

Variable getArrWithParser : string -> string -> list R -> option (list R).

Local Abbreviation InjectorDensityCustom :=
  (CustomDensity.InjectorDensityCustom getArrWithParser).

Lemma copy_params_not_assertion (v : list R) :
  forall i p msg, copy_params v i p <> Fail (AssertionFailed msg).
Proof.
  induction v as [|x v IH]; intros i p msg; simpl; [done|].
  unfold GpuArray_set. case_decide; simpl; [apply IH | done].
Qed.

Lemma copy_params_overflow (v : list R) :
  forall i p, (i <= length p < i + length v)%nat ->
    copy_params v i p = Fail OutOfBounds.
Proof.
  induction v as [|x v IH]; intros i p Hlen; simpl in *; [lia|].
  unfold GpuArray_set. case_decide; simpl; [|done].
  apply IH. rewrite length_insert. lia.
Qed.

(** C8.  The size check of the constructor looks at the vector before
    it is read from the input, hence at an empty vector: the check
    never fails and can be left out without changing the constructor,
    no input makes the constructor stop with the message
    "Too many parameters for InjectorDensityCustom", and an input of
    more than six parameters runs into the copy loop, which then
    writes past the six-element array. *)
Theorem InjectorDensityCustom_size_check_vacuous :
  (forall species p0,
     InjectorDensityCustom species p0 =
     InjectorDensityCustom_unchecked getArrWithParser species p0) /\
  (forall species p0,
     InjectorDensityCustom species p0 <> Fail (AssertionFailed too_many)) /\
  (forall species p0 v,
     getArrWithParser species "custom_profile_params" [] = Some v ->
     length p0 = 6%nat -> (6 < length v)%nat ->
     InjectorDensityCustom species p0 = Fail OutOfBounds).
Proof.
  split; [|split].
  - reflexivity.
  - intros species p0. unfold CustomDensity.InjectorDensityCustom. simpl.
    destruct (getArrWithParser _ _ _); [apply copy_params_not_assertion|done].
  - intros species p0 v Hv Hp Hlen.
    unfold CustomDensity.InjectorDensityCustom. simpl. rewrite Hv.
    apply copy_params_overflow. lia.
Qed.

End CustomDensity_properties.


Lemma InjectorDensityCustom_size_check_vacuous_witness :
  CustomDensity.InjectorDensityCustom seven_params "beam" [0; 0; 0; 0; 0; 0]%R
  = Fail OutOfBounds.
Proof.
  destruct (InjectorDensityCustom_size_check_vacuous seven_params)
    as (_ & _ & Hover).
  apply (Hover "beam" [0; 0; 0; 0; 0; 0]%R [1; 2; 3; 4; 5; 6; 7]%R).
  - reflexivity.
  - reflexivity.
  - cbn [length]. lia.
Defined.

(** ** The attribute registry *)

Section ParticleComps_properties.
Import ParticleComps.

Variable PIdx_nattribs : Z.

Local Abbreviation AddRealComp := (ParticleComps.AddRealComp PIdx_nattribs).
Local Abbreviation NumRealComps := (ParticleComps.NumRealComps PIdx_nattribs).

Lemma AddRealComp_present name comm pc :
  is_Some (particle_comps pc !! name) ->
  registry (AddRealComp name comm pc) = registry pc.
Proof.
  intros [n Hn]. unfold ParticleComps.AddRealComp. rewrite Hn. reflexivity.
Qed.

Lemma AddIntComp_present name comm pc :
  is_Some (particle_icomps pc !! name) ->
  registry (AddIntComp name comm pc) = registry pc.
Proof.
  intros [n Hn]. unfold ParticleComps.AddIntComp. rewrite Hn. reflexivity.
Qed.

Lemma AddRealComp_registers name comm pc :
  is_Some (particle_comps (AddRealComp name comm pc) !! name).
Proof.
  unfold ParticleComps.AddRealComp.
  destruct (particle_comps pc !! name) as [n|] eqn:E; simpl.
  - by rewrite E.
  - rewrite lookup_insert_eq. eauto.
Qed.

Lemma AddIntComp_registers name comm pc :
  is_Some (particle_icomps (AddIntComp name comm pc) !! name).
Proof.
  unfold ParticleComps.AddIntComp.
  destruct (particle_icomps pc !! name) as [n|] eqn:E; simpl.
  - by rewrite E.
  - rewrite lookup_insert_eq. eauto.
Qed.

(** C9.  Registering a name that is already in the registry changes
    neither the registry maps nor the number of components nor the
    columns, for real and for integer attributes alike; in particular
    a second registration of a name, right after the first, adds
    nothing. *)
Theorem AddComp_idempotent :
  (forall name comm pc,
     is_Some (particle_comps pc !! name) ->
     registry (AddRealComp name comm pc) = registry pc /\
     NumRealComps (AddRealComp name comm pc) = NumRealComps pc) /\
  (forall name comm pc,
     is_Some (particle_icomps pc !! name) ->
     registry (AddIntComp name comm pc) = registry pc /\
     NumIntComps (AddIntComp name comm pc) = NumIntComps pc) /\
  (forall name comm comm' pc,
     registry (AddRealComp name comm' (AddRealComp name comm pc)) =
     registry (AddRealComp name comm pc)) /\
  (forall name comm comm' pc,
     registry (AddIntComp name comm' (AddIntComp name comm pc)) =
     registry (AddIntComp name comm pc)).
Proof.
  repeat split.
  - by apply AddRealComp_present.
  - destruct H as [n Hn]. unfold ParticleComps.AddRealComp. by rewrite Hn.
  - by apply AddIntComp_present.
  - destruct H as [n Hn]. unfold ParticleComps.AddIntComp. by rewrite Hn.
  - intros. apply AddRealComp_present, AddRealComp_registers.
  - intros. apply AddIntComp_present, AddIntComp_registers.
Qed.

End ParticleComps_properties.


Lemma AddComp_idempotent_witness :
  ParticleComps.registry
    (ParticleComps.AddRealComp 4 "opticalDepthQSR" false pc_with_optical_depth)
  = ParticleComps.registry pc_with_optical_depth /\
  ParticleComps.NumRealComps 4
    (ParticleComps.AddRealComp 4 "opticalDepthQSR" false pc_with_optical_depth)
  = 5.
Proof.
  destruct (AddComp_idempotent 4) as (Hreal & _).
  destruct (Hreal "opticalDepthQSR" false pc_with_optical_depth) as [Hreg Hnum].
  - apply AddRealComp_registers.
  - split; [exact Hreg|]. rewrite Hnum. reflexivity.
Defined.

(** ** The coarsening utility: configuration checks *)

Section CoarsenIO_checks.
Import amrex CoarsenIO.

Variable dim : WARPX_DIM.
Variable stencil :
  Z * Z * Z -> Z * Z * Z -> Z * Z * Z -> Z -> Z -> Z -> list (R * (Z * Z * Z)).
Variable Box_convert : IntVect -> IntVect -> Box -> Box.
Variable Box_coarsen : IntVect -> IntVect -> Box -> Box.
Variable coarsenable : BoxArray -> IntVect -> bool.
Variable uninitialized : nat -> Array4.

Local Abbreviation Loop := (CoarsenIO.Loop dim stencil).
Local Abbreviation Coarsen :=
  (CoarsenIO.Coarsen dim stencil Box_convert Box_coarsen coarsenable
     uninitialized).
Local Abbreviation Coarsen_int :=
  (CoarsenIO.Coarsen_int dim stencil Box_convert Box_coarsen coarsenable
     uninitialized).

Ltac bool_to_Z :=
  rewrite ?orb_true_iff, ?andb_true_iff, ?Z.ltb_lt, ?Z.eqb_eq.

(** With ratios that are at least 1 in every direction, the
    lexicographic [crse_ratio > IntVect(1)] holds as soon as one ratio
    exceeds 1. *)
Lemma IntVect_gt_one (r : IntVect) :
  length r = AMREX_SPACEDIM dim ->
  Forall (fun x => 1 <= x) r -> Exists (fun x => 1 < x) r ->
  IntVect_gt r (IntVect_const dim 1) = true.
Proof.
  intros Hlen Hall Hex. unfold IntVect_gt, IntVect_const.
  destruct dim; simpl in Hlen.
  - destruct r as [|a [|b r]]; try discriminate Hlen.
    rewrite ?Forall_cons, ?Exists_cons, ?Exists_nil in *.
    cbn -[Z.ltb Z.eqb]. bool_to_Z. lia.
  - destruct r as [|a [|b [|c r]]]; try discriminate Hlen.
    rewrite ?Forall_cons, ?Exists_cons, ?Exists_nil in *.
    cbn -[Z.ltb Z.eqb]. bool_to_Z. lia.
  - destruct r as [|a [|b [|c r]]]; try discriminate Hlen.
    rewrite ?Forall_cons, ?Exists_cons, ?Exists_nil in *.
    cbn -[Z.ltb Z.eqb]. bool_to_Z. lia.
  - destruct r as [|a [|b [|c [|d r]]]]; try discriminate Hlen.
    rewrite ?Forall_cons, ?Exists_cons, ?Exists_nil in *.
    cbn -[Z.ltb Z.eqb]. bool_to_Z. lia.
Qed.

(** A source that is short of guard cells in every direction is
    lexicographically below what is required. *)
Lemma IntVect_lt_all (a b : IntVect) :
  length a = AMREX_SPACEDIM dim -> Forall2 Z.lt a b -> IntVect_lt a b = true.
Proof.
  intros Hlen Hlt. destruct dim; simpl in Hlen.
  - destruct Hlt as [|a0 b0 a b H0 Hlt]; [discriminate|].
    destruct Hlt; [|discriminate]. cbn -[Z.ltb Z.eqb]. bool_to_Z. lia.
  - destruct Hlt as [|a0 b0 a b H0 Hlt]; [discriminate|].
    destruct Hlt as [|a1 b1 a b H1 Hlt]; [discriminate|].
    destruct Hlt; [|discriminate]. cbn -[Z.ltb Z.eqb]. bool_to_Z. lia.
  - destruct Hlt as [|a0 b0 a b H0 Hlt]; [discriminate|].
    destruct Hlt as [|a1 b1 a b H1 Hlt]; [discriminate|].
    destruct Hlt; [|discriminate]. cbn -[Z.ltb Z.eqb]. bool_to_Z. lia.
  - destruct Hlt as [|a0 b0 a b H0 Hlt]; [discriminate|].
    destruct Hlt as [|a1 b1 a b H1 Hlt]; [discriminate|].
    destruct Hlt as [|a2 b2 a b H2 Hlt]; [discriminate|].
    destruct Hlt; [|discriminate]. cbn -[Z.ltb Z.eqb]. bool_to_Z. lia.
Qed.

Lemma Loop_guard_fill mf_dst mf_src dcomp scomp ncomp ngrowvect crse_ratio :
  IntVect_gt crse_ratio (IntVect_const dim 1) = true ->
  ngrowvect <> IntVect_const dim 0 ->
  Loop mf_dst mf_src dcomp scomp ncomp ngrowvect crse_ratio =
  (mf_dst, Some (AssertionFailed guard_fill_unsupported)).
Proof.
  intros Hgt Hng. unfold CoarsenIO.Loop. rewrite Hgt.
  unfold IntVect_eq. rewrite bool_decide_eq_false_2 by done. reflexivity.
Qed.

Lemma IntVect_const_nonzero (n : Z) :
  n <> 0 -> IntVect_const dim n <> IntVect_const dim 0.
Proof.
  intros Hn. unfold IntVect_const. destruct dim; simpl; intros [=]; done.
Qed.

(** C1.  With a coarsening ratio that exceeds 1 in some direction
    (all ratios being at least 1) and a guard-cell count that is not
    zero, [Loop] stops at its first assertion, with the message that
    filling guard cells is not supported with coarsening, and leaves
    the destination as it was.  [Coarsen] hands the request to [Loop]
    and stops there in the same way; it can only stop earlier, with
    its own message, when the boxes are not coarsenable.  No such call
    returns normally. *)
Theorem guard_fill_with_coarsening_fails
    mf_dst mf_src dcomp scomp ncomp ngrowvect crse_ratio :
  length crse_ratio = AMREX_SPACEDIM dim ->
  Forall (fun r => 1 <= r) crse_ratio ->
  Exists (fun r => 1 < r) crse_ratio ->
  ngrowvect <> IntVect_const dim 0 ->
  Loop mf_dst mf_src dcomp scomp ncomp ngrowvect crse_ratio =
    (mf_dst, Some (AssertionFailed guard_fill_unsupported)) /\
  Coarsen mf_dst mf_src dcomp scomp ncomp ngrowvect crse_ratio =
    (mf_dst,
     Some (AssertionFailed
             (if coarsenable
                   (convert Box_convert (boxArray mf_src)
                      (ixType (boxArray mf_dst))) crse_ratio
              then guard_fill_unsupported else not_coarsenable))) /\
  (forall ngrow, ngrow <> 0 ->
     Coarsen_int mf_dst mf_src dcomp scomp ncomp ngrow crse_ratio =
       (mf_dst,
        Some (AssertionFailed
                (if coarsenable
                      (convert Box_convert (boxArray mf_src)
                         (ixType (boxArray mf_dst))) crse_ratio
                 then guard_fill_unsupported else not_coarsenable)))).
Proof.
  intros Hlen Hall Hex Hng.
  assert (Hgt := IntVect_gt_one _ Hlen Hall Hex).
  assert (HC : forall ng, ng <> IntVect_const dim 0 ->
    Coarsen mf_dst mf_src dcomp scomp ncomp ng crse_ratio =
    (mf_dst,
     Some (AssertionFailed
             (if coarsenable
                   (convert Box_convert (boxArray mf_src)
                      (ixType (boxArray mf_dst))) crse_ratio
              then guard_fill_unsupported else not_coarsenable)))).
  { intros ng Hne. unfold CoarsenIO.Coarsen.
    destruct (coarsenable _ crse_ratio);
      cbn [asserting WARPX_ALWAYS_ASSERT_WITH_MESSAGE]; [|reflexivity].
    destruct (same_layout _ _ _ _ _).
    - by apply Loop_guard_fill.
    - by rewrite Loop_guard_fill. }
  split; [by apply Loop_guard_fill|]. split; [by apply HC|].
  intros ngrow Hn. unfold CoarsenIO.Coarsen_int.
  apply HC. by apply IntVect_const_nonzero.
Qed.

(** The case that the guard-cell assertion does catch.  When the
    source has, in every direction, fewer guard cells
    than [stag_dst - stag_src + ngrowvect], [Loop] stops at an
    assertion and leaves the destination untouched.  The message is
    the one about missing guard cells, unless the request also asks
    for guard cells together with coarsening, which the assertion
    placed first reports.  [Coarsen] stops in the same way, or earlier
    when the boxes are not coarsenable, and leaves its destination
    untouched as well. *)
Theorem too_few_guard_cells_fails
    mf_dst mf_src dcomp scomp ncomp ngrowvect crse_ratio :
  length (nGrowVect mf_src) = AMREX_SPACEDIM dim ->
  Forall2 Z.lt (nGrowVect mf_src)
    (IntVect_add (IntVect_sub (ixType (boxArray mf_dst))
                    (ixType (boxArray mf_src))) ngrowvect) ->
  Loop mf_dst mf_src dcomp scomp ncomp ngrowvect crse_ratio =
    (mf_dst,
     Some (AssertionFailed
             (if IntVect_gt crse_ratio (IntVect_const dim 1) &&
                 negb (IntVect_eq ngrowvect (IntVect_const dim 0))
              then guard_fill_unsupported else not_enough_guard_cells))) /\
  exists msg,
    Coarsen mf_dst mf_src dcomp scomp ncomp ngrowvect crse_ratio =
      (mf_dst, Some (AssertionFailed msg)) /\
    (msg = not_coarsenable \/ msg = guard_fill_unsupported \/
     msg = not_enough_guard_cells).
Proof.
  intros Hlen Hlt.
  assert (Hlex := IntVect_lt_all _ _ Hlen Hlt).
  assert (HL : forall (dst : MultiFab) dc,
    ixType (boxArray dst) = ixType (boxArray mf_dst) ->
    CoarsenIO.Loop dim stencil dst mf_src dc scomp ncomp ngrowvect crse_ratio =
    (dst,
     Some (AssertionFailed
             (if IntVect_gt crse_ratio (IntVect_const dim 1) &&
                 negb (IntVect_eq ngrowvect (IntVect_const dim 0))
              then guard_fill_unsupported else not_enough_guard_cells)))).
  { intros dst dc Hty. unfold CoarsenIO.Loop. rewrite Hty.
    unfold IntVect_ge. rewrite Hlex.
    destruct (IntVect_gt crse_ratio _); simpl; [|reflexivity].
    destruct (IntVect_eq ngrowvect _); reflexivity. }
  split; [by apply HL|].
  unfold CoarsenIO.Coarsen.
  destruct (coarsenable _ crse_ratio);
    cbn [asserting WARPX_ALWAYS_ASSERT_WITH_MESSAGE]; [|eauto].
  destruct (same_layout _ _ _ _ _).
  - rewrite HL by done. eexists. split; [reflexivity|].
    destruct (_ && _); auto.
  - rewrite HL by done. eexists. split; [reflexivity|].
    destruct (_ && _); auto.
Qed.

End CoarsenIO_checks.

(** ** The coarsening utility: a constant field stays constant *)

Section CoarsenIO_values.
Import amrex CoarsenIO.

Variable dim : WARPX_DIM.
Variable stencil :
  Z * Z * Z -> Z * Z * Z -> Z * Z * Z -> Z -> Z -> Z -> list (R * (Z * Z * Z)).
Variable Box_convert : IntVect -> IntVect -> Box -> Box.
Variable Box_coarsen : IntVect -> IntVect -> Box -> Box.
Variable coarsenable : BoxArray -> IntVect -> bool.
Variable uninitialized : nat -> Array4.

Local Abbreviation Interp := (CoarsenIO.Interp stencil).
Local Abbreviation Loop := (CoarsenIO.Loop dim stencil).
Local Abbreviation Coarsen :=
  (CoarsenIO.Coarsen dim stencil Box_convert Box_coarsen coarsenable
     uninitialized).











(** When the loop over the boxes runs to its end: every box visited
    has a counterpart in the source and its stores stay inside the
    destination. *)
Lemma MFIter_loop_accepts mf_src dcomp scomp ncomp ng sf sc cr :
  forall idxs mf_dst,
    (forall b, b ∈ idxs ->
       exists vbx, boxes (boxArray mf_dst) !! b = Some vbx /\
         is_Some (boxes (boxArray mf_src) !! b) /\
         Box_within (grow vbx ng) (grow vbx (nGrowVect mf_dst)) = true) ->
    0 <= dcomp -> dcomp + ncomp <= nComp mf_dst ->
    exists mf_dst',
      MFIter_loop (Loop_box stencil mf_src dcomp scomp ncomp ng sf sc cr)
                  idxs mf_dst = (mf_dst', None).
Proof.
  induction idxs as [|b0 rest IH]; intros mf_dst Hbx Hd Hn; simpl; [eauto|].
  destruct (Hbx b0) as (vbx & Hvbx & [sbx Hsbx] & Hin); [by left|].
  unfold Loop_box at 1. rewrite Hvbx, Hsbx, Hin.
  replace (0 <=? dcomp) with true by lia.
  replace (dcomp + ncomp <=? nComp mf_dst) with true by lia.
  rewrite orb_true_r. apply IH; cbn [set_fab boxArray nGrowVect nComp]; [|done|done].
  intros b Hb. apply Hbx. by right.
Qed.

Lemma Loop_accepts mf_dst mf_src dcomp scomp ncomp ng crse_ratio :
  (IntVect_gt crse_ratio (IntVect_const dim 1) = true ->
   ng = IntVect_const dim 0) ->
  IntVect_ge (nGrowVect mf_src)
    (IntVect_add (IntVect_sub (ixType (boxArray mf_dst))
                    (ixType (boxArray mf_src))) ng) = true ->
  (forall b vbx, boxes (boxArray mf_dst) !! b = Some vbx ->
     is_Some (boxes (boxArray mf_src) !! b) /\
     Box_within (grow vbx ng) (grow vbx (nGrowVect mf_dst)) = true) ->
  0 <= dcomp -> dcomp + ncomp <= nComp mf_dst ->
  exists mf_dst',
    Loop mf_dst mf_src dcomp scomp ncomp ng crse_ratio = (mf_dst', None).
Proof.
  intros Hgt Hge Hbx Hd Hn. unfold CoarsenIO.Loop. rewrite Hge.
  assert (Hfirst :
    (if IntVect_gt crse_ratio (IntVect_const dim 1)
     then WARPX_ALWAYS_ASSERT_WITH_MESSAGE
            (IntVect_eq ng (IntVect_const dim 0)) guard_fill_unsupported
     else Done tt) = Done tt).
  { destruct (IntVect_gt crse_ratio _); [|done].
    rewrite Hgt by done. unfold IntVect_eq.
    by rewrite bool_decide_eq_true_2. }
  rewrite Hfirst. cbn [asserting WARPX_ALWAYS_ASSERT_WITH_MESSAGE].
  apply MFIter_loop_accepts; [|done|done].
  intros b Hb. apply elem_of_seq in Hb.
  destruct (lookup_lt_is_Some_2 (boxes (boxArray mf_dst)) b) as [vbx Hvbx];
    [lia|].
  exists vbx. destruct (Hbx b vbx Hvbx). auto.
Qed.

(** A request that meets the documented preconditions is accepted:
    [Coarsen] returns without a failure. *)
Lemma Coarsen_accepts mf_dst mf_src dcomp scomp ncomp ng crse_ratio :
  coarsenable (convert Box_convert (boxArray mf_src)
                 (ixType (boxArray mf_dst))) crse_ratio = true ->
  (IntVect_gt crse_ratio (IntVect_const dim 1) = true ->
   ng = IntVect_const dim 0) ->
  IntVect_ge (nGrowVect mf_src)
    (IntVect_add (IntVect_sub (ixType (boxArray mf_dst))
                    (ixType (boxArray mf_src))) ng) = true ->
  (if same_layout Box_convert Box_coarsen mf_dst mf_src crse_ratio
   then (forall b vbx, boxes (boxArray mf_dst) !! b = Some vbx ->
           Box_within (grow vbx ng) (grow vbx (nGrowVect mf_dst)) = true) /\
        0 <= dcomp /\ dcomp + ncomp <= nComp mf_dst
   else forall b bx,
          boxes (ba_tmp Box_convert Box_coarsen mf_dst mf_src crse_ratio) !! b
            = Some bx ->
          Box_within (grow bx ng) (grow bx (IntVect_const dim 0)) = true) ->
  exists mf_dst',
    Coarsen mf_dst mf_src dcomp scomp ncomp ng crse_ratio = (mf_dst', None).
Proof.
  intros Hco Hgt Hge Hbx. unfold CoarsenIO.Coarsen. rewrite Hco.
  cbn [asserting WARPX_ALWAYS_ASSERT_WITH_MESSAGE].
  assert (Hlen : length (boxes (ba_tmp Box_convert Box_coarsen
                                  mf_dst mf_src crse_ratio))
                 = length (boxes (boxArray mf_src))).
  { unfold ba_tmp, coarsen, convert. cbn [boxes]. by rewrite !length_map. }
  destruct (same_layout Box_convert Box_coarsen mf_dst mf_src crse_ratio)
    eqn:Elay.
  - destruct Hbx as (Hin & Hd & Hn).
    apply Loop_accepts; try done. intros b vbx Hvbx. split; [|eauto].
    unfold same_layout in Elay. apply andb_true_iff in Elay as [Eba _].
    apply bool_decide_eq_true in Eba. rewrite Eba in Hlen.
    apply lookup_lt_is_Some_2. rewrite <- Hlen. by eapply lookup_lt_Some.
  - destruct (Loop_accepts
                (mkMultiFab (ba_tmp Box_convert Box_coarsen mf_dst mf_src
                               crse_ratio)
                   (DistributionMap mf_src) ncomp (IntVect_const dim 0)
                   uninitialized)
                mf_src 0 scomp ncomp ng crse_ratio) as [mf_tmp' Htmp];
      try done; cbn [boxArray nGrowVect nComp]; try lia.
    + intros b bx Hb. split; [|eauto].
      apply lookup_lt_is_Some_2. rewrite <- Hlen. by eapply lookup_lt_Some.
    + rewrite Htmp. eauto.
Qed.


End CoarsenIO_values.

(** ** Charge deposition conserves the total charge *)

Section Deposition_properties.
Import Deposition.
Local Open Scope R_scope.

Variable dim : WARPX_DIM.

Local Abbreviation contributions := (Deposition.contributions dim).
Local Abbreviation DepositCharge := (Deposition.DepositCharge dim).

Lemma sumf_app {A} (h : A -> R) (l1 l2 : list A) :
  sumf h (l1 ++ l2) = sumf h l1 + sumf h l2.
Proof. induction l1 as [|x l1 IH]; simpl; [ring | rewrite IH; ring]. Qed.

Lemma sumf_bind {A B} (h : B -> R) (f : A -> list B) (l : list A) :
  sumf h (l ≫= f) = sumf (fun x => sumf h (f x)) l.
Proof.
  induction l as [|x l IH]; [reflexivity|].
  change ((x :: l) ≫= f) with (f x ++ (l ≫= f)).
  rewrite sumf_app, IH. reflexivity.
Qed.

Lemma sumf_ext {A} (h h' : A -> R) (l : list A) :
  (forall x, h x = h' x) -> sumf h l = sumf h' l.
Proof. intros E. induction l as [|x l IH]; simpl; [done | by rewrite E, IH]. Qed.

Lemma sumf_scale {A} (c : R) (h : A -> R) (l : list A) :
  sumf (fun x => c * h x) l = c * sumf h l.
Proof. induction l as [|x l IH]; simpl; [ring | rewrite IH; ring]. Qed.

(** The shape weights along an axis add up to one, for every order
    and every position, on a cell boundary or not. *)
Lemma axis_points_unity (present : bool) (order : shape_order) (xmid : R) :
  sumf snd (axis_points present order xmid) = 1.
Proof.
  unfold axis_points. destruct present; [|simpl; ring].
  destruct order; unfold sumf; simpl; field.
Qed.

Lemma contributions_total (q : R) (order : shape_order) (p : particle) :
  sumf snd (contributions q order p) = q * wp p.
Proof.
  unfold Deposition.contributions. rewrite sumf_bind.
  rewrite (sumf_ext _ (fun ix => (q * wp p) * snd ix)).
  { rewrite sumf_scale, axis_points_unity. ring. }
  intros ix. rewrite sumf_bind.
  rewrite (sumf_ext _ (fun iy => (q * wp p * snd ix) * snd iy)).
  { rewrite sumf_scale, axis_points_unity. ring. }
  intros iy. rewrite sumf_bind.
  rewrite (sumf_ext _ (fun iz => (q * wp p * snd ix * snd iy) * snd iz)).
  { rewrite sumf_scale, axis_points_unity. ring. }
  intros iz. simpl. ring.
Qed.

Lemma mesh_charge_add_at_out mesh rho c v :
  c ∉ mesh -> mesh_charge mesh (add_at rho c v) = mesh_charge mesh rho.
Proof.
  induction mesh as [|c0 mesh IH]; intros Hc; simpl; [done|].
  apply not_elem_of_cons in Hc as [Hne Hc]. rewrite IH by done.
  unfold add_at. rewrite decide_False by done. reflexivity.
Qed.

Lemma mesh_charge_add_at mesh rho c v :
  NoDup mesh -> c ∈ mesh ->
  mesh_charge mesh (add_at rho c v) = mesh_charge mesh rho + v.
Proof.
  induction mesh as [|c0 mesh IH]; intros Hnd Hc; [by inversion Hc|].
  apply NoDup_cons in Hnd as [Hc0 Hnd]. simpl.
  destruct (decide (c0 = c)) as [->|Hne].
  - rewrite mesh_charge_add_at_out by done.
    unfold add_at. rewrite decide_True by done. ring.
  - apply elem_of_cons in Hc as [Hc|Hc]; [done|].
    rewrite IH by done. unfold add_at. rewrite decide_False by done. ring.
Qed.

Lemma mesh_charge_scatter mesh (l : list (Z * Z * Z * R)) :
  NoDup mesh ->
  forall rho, (forall cv, cv ∈ l -> fst cv ∈ mesh) ->
  mesh_charge mesh (foldl (fun r cv => add_at r (fst cv) (snd cv)) rho l)
  = mesh_charge mesh rho + sumf snd l.
Proof.
  intros Hnd. induction l as [|cv l IH]; intros rho Hin; simpl; [ring|].
  rewrite IH by (intros; apply Hin; by right).
  rewrite mesh_charge_add_at by (try done; apply Hin; by left). ring.
Qed.

Lemma mesh_charge_deposit mesh q order (particles : list particle) :
  NoDup mesh ->
  covers dim mesh q order particles ->
  forall rho,
  mesh_charge mesh (foldl (deposit_particle dim q order) rho particles)
  = mesh_charge mesh rho + sumParticleCharge q particles.
Proof.
  intros Hnd. unfold sumParticleCharge.
  induction particles as [|p ps IH]; intros Hcov rho; simpl; [ring|].
  rewrite IH by (intros p' cv Hp'; apply Hcov; by right).
  unfold deposit_particle.
  rewrite mesh_charge_scatter by (try done; intros cv; apply Hcov; by left).
  rewrite contributions_total. ring.
Qed.

Lemma mesh_charge_zero mesh : mesh_charge mesh (fun _ => 0) = 0.
Proof. induction mesh as [|c mesh IH]; simpl; [done | rewrite IH; ring]. Qed.

(** C5.  For any particles, weights, charge, shape order and
    positions, the charge found on the mesh after the deposition is
    the charge that was there before (none after a reset) plus the sum
    of the weights times the charge of the species.  The mesh is any
    set of cells that contains every cell the particles deposit
    into. *)
Theorem deposited_charge_is_conserved
    (mesh : list (Z * Z * Z)) (q : R) (order : shape_order) (reset : bool)
    (particles : list particle) (rho : Z * Z * Z -> R) :
  NoDup mesh ->
  covers dim mesh q order particles ->
  mesh_charge mesh (DepositCharge q order reset particles rho)
  = (if reset then 0 else mesh_charge mesh rho)
    + sumParticleCharge q particles.
Proof.
  intros Hnd Hcov. unfold Deposition.DepositCharge.
  rewrite mesh_charge_deposit by done.
  destruct reset; [by rewrite mesh_charge_zero | done].
Qed.

End Deposition_properties.

(** ** The PSATD coefficient cache *)

Section Psatd_properties.
Import Psatd.

Variable KVector Fields Coefficients : Type.
Variable compute_coefficients : KVector -> KVector -> R -> Coefficients.
Variable update_fields : Coefficients -> Fields -> Fields.

Local Abbreviation pushSpectralFields :=
  (Psatd.pushSpectralFields compute_coefficients update_fields).
Local Abbreviation after_pushes :=
  (Psatd.after_pushes compute_coefficients update_fields).
Local Abbreviation new_PsatdAlgorithmRZ :=
  (@Psatd.new_PsatdAlgorithmRZ KVector Coefficients).
Local Abbreviation solver := (PsatdAlgorithmRZ KVector Coefficients).
Local Abbreviation cache_valid := (Psatd.cache_valid compute_coefficients).
Local Abbreviation field_data := (SpectralFieldDataRZ KVector Fields).

Lemma push_keeps_cache_valid k kz dt alg (f : field_data) :
  kr f = k -> cache_valid k kz dt alg ->
  cache_valid k kz dt (fst (pushSpectralFields alg f)) /\
  coefficients_initialized (fst (pushSpectralFields alg f)) = true.
Proof.
  intros Hk (Hkz & Hdt & Hc). unfold Psatd.pushSpectralFields. simpl.
  destruct (coefficients_initialized alg) eqn:E.
  - split; [|done]. split; [done|]. split; [done|]. intros _. by apply Hc.
  - split; [|done]. split; [done|]. split; [done|].
    intros _. simpl. by rewrite Hk, Hkz, Hdt.
Qed.

Lemma push_with_valid_cache k kz dt alg (f : field_data) :
  kr f = k -> cache_valid k kz dt alg ->
  snd (pushSpectralFields alg f) =
  mkFieldData (update_fields (compute_coefficients k kz dt) (fields f)) (kr f).
Proof.
  intros Hk (Hkz & Hdt & Hc). unfold Psatd.pushSpectralFields. simpl.
  destruct (coefficients_initialized alg) eqn:E.
  - by rewrite Hc.
  - simpl. by rewrite Hk, Hkz, Hdt.
Qed.

Lemma after_pushes_cache_valid k kz dt
    (earlier : list field_data) :
  forall alg,
  (forall g, g ∈ earlier -> kr g = k) ->
  cache_valid k kz dt alg ->
  cache_valid k kz dt (after_pushes alg earlier) /\
  (earlier <> [] -> coefficients_initialized (after_pushes alg earlier) = true).
Proof.
  induction earlier as [|g gs IH]; intros alg Hk Hv; [done|].
  simpl. destruct (push_keeps_cache_valid k kz dt alg g) as [Hv' Hi'];
    [apply Hk; by left | done |].
  destruct (IH (fst (pushSpectralFields alg g))) as [Hv'' Hi''];
    [intros; apply Hk; by right | done |].
  split; [done|]. intros _.
  destruct gs as [|g' gs]; [exact Hi' | by apply Hi''].
Qed.

(** C7.  A solver built for the time step [dt] that has already
    advanced some fields holds its coefficients in the cache; the next
    advance reuses them and gives the fields that a solver freshly
    built for the same [dt], which computes its coefficients on the
    spot, gives.  All field data come from the same spectral grid. *)
Theorem cached_coefficients_same_advance
    (kz : KVector) (dt : R) (blank blank' : Coefficients)
    (earlier : list field_data)
    (f : field_data) :
  (forall g, g ∈ earlier -> kr g = kr f) ->
  earlier <> [] ->
  let cached := after_pushes (new_PsatdAlgorithmRZ kz dt blank) earlier in
  let fresh := new_PsatdAlgorithmRZ kz dt blank' in
  coefficients_initialized cached = true /\
  coef (fst (pushSpectralFields cached f)) = coef cached /\
  snd (pushSpectralFields cached f) = snd (pushSpectralFields fresh f).
Proof.
  intros Hk Hne cached fresh.
  assert (Hnew : forall b, cache_valid (kr f) kz dt (new_PsatdAlgorithmRZ kz dt b)).
  { intros b. by split; [|split]. }
  destruct (after_pushes_cache_valid (kr f) kz dt earlier _ Hk (Hnew blank))
    as [Hv Hi].
  specialize (Hi Hne). fold cached in Hv, Hi.
  split; [done|]. split.
  - unfold Psatd.pushSpectralFields. simpl. by rewrite Hi.
  - rewrite (push_with_valid_cache (kr f) kz dt cached) by done.
    by rewrite (push_with_valid_cache (kr f) kz dt fresh).
Qed.

End Psatd_properties.

(** ** The theorems at concrete inputs *)

Section Witnesses.
Import amrex.

Lemma guard_fill_with_coarsening_fails_witness :
  CoarsenIO.Loop DIM_XZ equal_weight_stencil coarse_zero fine_ones
    0 0 1 [1; 1] [2; 2]
  = (coarse_zero,
     Some (AssertionFailed CoarsenIO.guard_fill_unsupported)).
Proof.
  destruct (guard_fill_with_coarsening_fails DIM_XZ equal_weight_stencil
              Box_convert_std Box_coarsen_std coarsenable_std blank_fab
              coarse_zero fine_ones 0 0 1 [1; 1] [2; 2]) as [HLoop _].
  - reflexivity.
  - repeat constructor; lia.
  - left. lia.
  - discriminate.
  - exact HLoop.
Defined.

Lemma too_few_guard_cells_fails_witness :
  CoarsenIO.Loop DIM_XZ equal_weight_stencil coarse_nodal fine_ones
    0 0 1 [0; 0] [1; 1]
  = (coarse_nodal,
     Some (AssertionFailed CoarsenIO.not_enough_guard_cells)).
Proof.
  destruct (too_few_guard_cells_fails DIM_XZ equal_weight_stencil
              Box_convert_std Box_coarsen_std coarsenable_std blank_fab
              coarse_nodal fine_ones 0 0 1 [0; 0] [1; 1]) as [HLoop _].
  - reflexivity.
  - repeat constructor; lia.
  - exact HLoop.
Defined.

(** The guard-cell assertion compares lexicographically: a source
    with no guard cell along x and two along z passes it for a
    destination that is nodal along x, where one guard cell along x is
    needed. *)
Example guard_check_passes_with_one_short_axis :
  IntVect_ge [0; 2] (IntVect_add (IntVect_sub [1; 0] [0; 0]) [0; 0]) = true.
Proof. reflexivity. Qed.

(** C6.  The guard-cell assertion of [Loop] lets through a source that
    is short of guard cells along one direction.  The destination
    [dst_nodal_x] is nodal along x and the source [src_wide_z] is
    cell-centred, so that one guard cell is needed along x; the source
    has none along x and two along z.  The comparison of the assertion
    is lexicographic, the last direction first, and holds; [Loop]
    raises no assertion and runs its loop over the destination, whose
    point (0, 0) is interpolated from the source point (-1, 0), outside
    the box the source has allocated. *)
Theorem short_axis_passes_guard_check :
  let stag_src := ixType (boxArray src_wide_z) in
  let stag_dst := ixType (boxArray dst_nodal_x) in
  IntVect_add (IntVect_sub stag_dst stag_src) [0; 0] = [1; 0] /\
  nGrowVect src_wide_z = [0; 2] /\
  snd (CoarsenIO.Loop DIM_XZ equal_weight_stencil dst_nodal_x src_wide_z
         0 0 1 [0; 0] [1; 1]) = None /\
  Box_contains (mkBox [0; 0] [4; 3]) 0 0 0 = true /\
  (exists w,
     (w, (-1, 0, 0))
       ∈ equal_weight_stencil (CoarsenIO.aux3 DIM_XZ stag_src 0)
           (CoarsenIO.aux3 DIM_XZ stag_dst 0)
           (CoarsenIO.aux3 DIM_XZ [1; 1] 1) 0 0 0) /\
  Box_contains (grow (mkBox [0; 0] [3; 3]) (nGrowVect src_wide_z)) (-1) 0 0
  = false.
Proof.
  cbv zeta. split; [reflexivity|]. split; [reflexivity|].
  split; [reflexivity|]. split; [reflexivity|]. split; [|reflexivity].
  eexists. unfold equal_weight_stencil. simpl. left.
Qed.



Lemma boundary_particle_cells :
  fst <$> Deposition.contributions DIM_XZ 3 Deposition.order1
            boundary_particle
  = [(0, 0, 1); (0, 0, 2); (1, 0, 1); (1, 0, 2)].
Proof.
  assert (H1 : Int_part (1 / 2) = 0).
  { symmetry. apply Int_part_spec. simpl. lra. }
  assert (H2 : Int_part 1 = 1).
  { symmetry. apply Int_part_spec. simpl. lra. }
  unfold Deposition.contributions, Deposition.axis_points,
    Deposition.shape_factor, Deposition.floor, boundary_particle.
  cbn [Deposition.px Deposition.py Deposition.pz Deposition.has_x
       Deposition.has_y AMREX_SPACEDIM Nat.leb fst snd].
  rewrite H1, H2. reflexivity.
Qed.

Lemma small_mesh_covers :
  Deposition.covers DIM_XZ small_mesh 3 Deposition.order1 [boundary_particle].
Proof.
  intros p cv Hp Hcv. apply list_elem_of_singleton in Hp as ->.
  apply (list_elem_of_fmap_2 fst) in Hcv. rewrite boundary_particle_cells in Hcv.
  apply list_elem_of_In in Hcv. apply list_elem_of_In.
  simpl in Hcv |- *. intuition.
Qed.

Lemma deposited_charge_is_conserved_witness :
  Deposition.mesh_charge small_mesh
    (Deposition.DepositCharge DIM_XZ 3 Deposition.order1 true
       [boundary_particle] (fun _ => 5%R))
  = (0 + Deposition.sumParticleCharge 3 [boundary_particle])%R.
Proof.
  apply (deposited_charge_is_conserved DIM_XZ small_mesh 3 Deposition.order1
           true [boundary_particle] (fun _ => 5%R)).
  - apply (bool_decide_unpack _). reflexivity.
  - exact small_mesh_covers.
Defined.

Lemma cached_coefficients_same_advance_witness :
  snd (Psatd.pushSpectralFields toy_coefficients toy_update
         (Psatd.after_pushes toy_coefficients toy_update
            (Psatd.new_PsatdAlgorithmRZ 7 (1 / 2)%R 0%R)
            [Psatd.mkFieldData 1%R 5])
         (Psatd.mkFieldData 2%R 5))
  = snd (Psatd.pushSpectralFields toy_coefficients toy_update
           (Psatd.new_PsatdAlgorithmRZ 7 (1 / 2)%R 1%R)
           (Psatd.mkFieldData 2%R 5)).
Proof.
  destruct (cached_coefficients_same_advance Z R R toy_coefficients toy_update
              7 (1 / 2)%R 0%R 1%R [Psatd.mkFieldData 1%R 5]
              (Psatd.mkFieldData 2%R 5)) as (_ & _ & Hsame).
  - intros g Hg. apply list_elem_of_singleton in Hg as ->. reflexivity.
  - discriminate.
  - exact Hsame.
Defined.

End Witnesses.

(* ================================================================== *)
(** * Part III: further properties of the embedded code               *)
(* ================================================================== *)

(** ** The custom density profile: what the constructor stores *)

Section CustomDensity_more.
Import CustomDensity.

Variable getArrWithParser : string -> string -> list R -> option (list R).

Lemma copy_params_lookup (v : list R) :
  forall i p,
    (i + length v <= length p)%nat ->
    exists p',
      copy_params v i p = Done p' /\ length p' = length p /\
      (forall j, (j < length v)%nat -> p' !! (i + j)%nat = v !! j) /\
      (forall j, (j < i)%nat \/ (i + length v <= j)%nat -> p' !! j = p !! j).
Proof.
  induction v as [|a v IH]; intros i p Hlen; simpl in *.
  - exists p. split; [done|]. split; [done|]. split; [intros; lia | done].
  - unfold GpuArray_set. rewrite decide_True by lia. simpl.
    destruct (IH (S i) (<[i := a]> p)) as (p' & Hrun & Hl & Hin & Hout).
    { rewrite length_insert. lia. }
    exists p'. rewrite length_insert in Hl.
    split; [done|]. split; [done|]. split.
    + intros [|j] Hj.
      * rewrite Nat.add_0_r, Hout by lia.
        apply list_lookup_insert_eq. lia.
      * replace (i + S j)%nat with (S i + j)%nat by lia. apply Hin. lia.
    + intros j Hj. rewrite Hout by lia. apply list_lookup_insert_ne. lia.
Qed.

(** X4.  With at most six parameters in the input the constructor
    succeeds: it stores them, in order, at the front of the
    six-element array and leaves the remaining elements as they were;
    the density is then the first parameter at every position (and
    whatever the array held before when no parameter was given). *)
Theorem InjectorDensityCustom_stores_parameters
    (species : string) (p0 v : list R) :
  getArrWithParser species "custom_profile_params" [] = Some v ->
  length p0 = 6%nat -> (length v <= 6)%nat ->
  exists p,
    InjectorDensityCustom getArrWithParser species p0 = Done p /\
    length p = 6%nat /\
    (forall j, (j < length v)%nat -> p !! j = v !! j) /\
    (forall j, (length v <= j)%nat -> p !! j = p0 !! j) /\
    (forall x y z,
       getDensity p x y z = match v with
                            | a :: _ => Some a
                            | [] => p0 !! 0%nat
                            end).
Proof.
  intros Hv Hp Hlen. unfold InjectorDensityCustom. simpl. rewrite Hv.
  destruct (copy_params_lookup v 0 p0) as (p & Hrun & Hl & Hin & Hout);
    [lia|].
  exists p. split; [done|]. split; [lia|]. split; [|split].
  - intros j Hj. exact (Hin j Hj).
  - intros j Hj. apply Hout. lia.
  - intros x y z. unfold getDensity. destruct v as [|a v].
    + apply Hout. simpl. lia.
    + apply (Hin 0%nat). simpl. lia.
Qed.

End CustomDensity_more.

(** ** The attribute registry: new names *)

Section ParticleComps_more.
Import ParticleComps.

Variable PIdx_nattribs : Z.

Local Abbreviation AddRealComp := (ParticleComps.AddRealComp PIdx_nattribs).
Local Abbreviation NumRealComps := (ParticleComps.NumRealComps PIdx_nattribs).
Local Abbreviation registry_ok := (ParticleComps.registry_ok PIdx_nattribs).

(** X5.  Registering a name that is not yet in the registry gives it
    the next free column: the name maps to the former number of real
    components, its run-time index is the former number of run-time
    components, the number of components grows by one, the column
    carries the communication flag, and every other name keeps its
    entries. *)
Theorem AddRealComp_fresh (name : string) (comm : bool)
    (pc : WarpXParticleContainer) :
  particle_comps pc !! name = None ->
  particle_comps (AddRealComp name comm pc) !! name = Some (NumRealComps pc) /\
  particle_runtime_comps (AddRealComp name comm pc) !! name
    = Some (m_num_runtime_real pc) /\
  NumRealComps (AddRealComp name comm pc) = NumRealComps pc + 1 /\
  h_redistribute_real_comp (AddRealComp name comm pc)
    = h_redistribute_real_comp pc ++ [comm] /\
  (forall other, other <> name ->
     particle_comps (AddRealComp name comm pc) !! other
       = particle_comps pc !! other /\
     particle_runtime_comps (AddRealComp name comm pc) !! other
       = particle_runtime_comps pc !! other).
Proof.
  intros Hfresh. unfold ParticleComps.AddRealComp. rewrite Hfresh.
  unfold base_AddRealComp, ParticleComps.NumRealComps. simpl.
  rewrite !lookup_insert_eq. repeat split.
  - f_equal. lia.
  - lia.
  - by rewrite lookup_insert_ne.
  - by rewrite lookup_insert_ne.
Qed.

(** X6.  A consistent registry stays consistent when a real attribute
    is registered, whether the name is new or not: every name still
    designates an existing column, no two names share a column, and
    the run-time indices agree with the columns. *)
Theorem AddRealComp_keeps_registry_ok (name : string) (comm : bool)
    (pc : WarpXParticleContainer) :
  registry_ok pc -> registry_ok (AddRealComp name comm pc).
Proof.
  intros (Hlt & Hinj & Hrt). unfold ParticleComps.AddRealComp.
  destruct (particle_comps pc !! name) as [n|] eqn:E.
  { by split; [|split]. }
  unfold ParticleComps.registry_ok, base_AddRealComp,
    ParticleComps.NumRealComps in *. simpl.
  split; [|split].
  - intros nm i. rewrite lookup_insert.
    case_decide; [intros [= <-]; lia|]. intros Hnm. apply Hlt in Hnm. lia.
  - intros n1 n2 i. rewrite !lookup_insert.
    repeat case_decide; subst; try done.
    + intros [= <-] Hn2. apply Hlt in Hn2. lia.
    + intros Hn1 [= <-]. apply Hlt in Hn1. lia.
    + apply Hinj.
  - intros nm r. rewrite !lookup_insert.
    case_decide; [intros [= <-]; f_equal; lia|]. apply Hrt.
Qed.

(** X7.  The real and the integer registries do not interfere:
    registering a real attribute and an integer attribute in either
    order leaves the same maps, counts and columns. *)
Theorem AddRealComp_AddIntComp_commute (a b : string) (ca cb : bool)
    (pc : WarpXParticleContainer) :
  registry (AddRealComp a ca (AddIntComp b cb pc))
  = registry (AddIntComp b cb (AddRealComp a ca pc)).
Proof.
  unfold ParticleComps.AddRealComp, AddIntComp.
  destruct (particle_comps pc !! a) eqn:Ea;
    destruct (particle_icomps pc !! b) eqn:Eb; simpl;
    rewrite ?Ea, ?Eb; reflexivity.
Qed.

End ParticleComps_more.

(** ** Back-transformed diagnostics: the closing flush and the loop
    over the snapshots *)

Section BTD_more.
Import BTD.

Variable buffer_full : BTDiagnostics -> nat -> bool.
Variable buffer_empty : BTDiagnostics -> nat -> bool.
Variable ResetBufferCounter : list Z -> nat -> option (list Z).
Variable IncrementBufferFlushCounter : list Z -> nat -> option (list Z).

Local Abbreviation step :=
  (BTD.step ResetBufferCounter IncrementBufferFlushCounter).
Local Abbreviation Flush :=
  (BTD.Flush ResetBufferCounter IncrementBufferFlushCounter).
Local Abbreviation DoDump := (BTD.DoDump buffer_full buffer_empty).

Lemma vec_set_length (v v' : list Z) (i : nat) (x : Z) :
  vec_set v i x = Some v' -> length v' = length v.
Proof.
  unfold vec_set. case_decide; [|done]. intros [= <-]. apply length_insert.
Qed.

Lemma SetSnapshotFullStatus_sets i bt bt' :
  m_lastValidZSlice bt !! i = Some 1 ->
  SetSnapshotFullStatus i bt = Some bt' ->
  m_snapshot_full bt' !! i = Some 1.
Proof.
  intros Hlast. unfold SetSnapshotFullStatus. rewrite Hlast.
  destruct (m_snapshot_full bt !! i) as [full|] eqn:Ei; [|done]. simpl.
  destruct (full =? 1) eqn:Efull.
  - intros [= <-]. apply Z.eqb_eq in Efull. by subst.
  - simpl. destruct (vec_set _ i 1) as [sf|] eqn:Es; [|done].
    intros [= <-]. simpl. by eapply vec_set_lookup_eq.
Qed.

(** X8.  The flush that follows the last slice closes the snapshot.
    While the last valid slice is recorded and the snapshot is not yet
    marked full, [DoDump] asks for a dump at every step that is not
    negative.  That [Flush] marks the snapshot full, and [DoDump]
    then refuses every further dump of it. *)
Theorem Flush_closes_snapshot (i : nat) (bt bt' : BTDiagnostics) :
  m_lastValidZSlice bt !! i = Some 1 ->
  Flush i bt = Some bt' ->
  (forall s st ff,
     m_snapshot_full bt !! i = Some s -> s <> 1 -> 0 <= st ->
     DoDump bt st i ff = Some true) /\
  m_snapshot_full bt' !! i = Some 1 /\
  (forall st ff, DoDump bt' st i ff = Some false).
Proof.
  intros Hlast Hflush.
  assert (Hfull' : m_snapshot_full bt' !! i = Some 1).
  { unfold BTD.Flush in Hflush.
    destruct (SetSnapshotFullStatus i bt) as [bt1|] eqn:E1; [|done].
    simpl in Hflush.
    destruct (ResetBufferCounter _ i) as [ct|]; [|done]. simpl in Hflush.
    destruct (IncrementBufferFlushCounter _ i) as [fl|]; [|done].
    simpl in Hflush. injection Hflush as <-. simpl.
    by eapply SetSnapshotFullStatus_sets. }
  split; [|split; [done|]].
  - intros s st ff Hs Hne Hst. unfold BTD.DoDump.
    replace (st <? 0) with false by lia. rewrite Hs. simpl.
    replace (s =? 1) with false by lia.
    destruct (buffer_full bt i); [done|]. by rewrite Hlast.
  - intros st ff. by apply DoDump_full.
Qed.

Lemma for_buffers_invariant (P : BTDiagnostics -> Prop) body :
  (forall bt i bt', body bt i = Some bt' -> P bt -> P bt') ->
  forall idxs bt bt', for_buffers body idxs bt = Some bt' -> P bt -> P bt'.
Proof.
  intros Hbody. induction idxs as [|i rest IH]; intros bt bt' H HP; simpl in H.
  - by injection H as <-.
  - destruct (body bt i) as [bt1|] eqn:E; [|done]. simpl in H.
    eapply IH; eauto.
Qed.

Lemma UpdateBufferData_body_status_ok n zs kz bt i bt' :
  UpdateBufferData_body zs kz bt i = Some bt' ->
  status_ok n bt -> status_ok n bt'.
Proof.
  unfold UpdateBufferData_body. intros H (Hn & Hlf & Hll & Himp).
  assert (Hbt1 : forall bt1,
    (if kz i =? 0
     then lv ← vec_set (m_lastValidZSlice bt1) i 1;
          Some (set_lastValidZSlice bt1 lv)
     else Some bt1) = Some bt' ->
    m_num_buffers bt1 = n -> m_snapshot_full bt1 = m_snapshot_full bt ->
    m_lastValidZSlice bt1 = m_lastValidZSlice bt ->
    status_ok n bt').
  { intros bt1 Hrun Hn1 Hf1 Hl1. destruct (kz i =? 0).
    - destruct (vec_set (m_lastValidZSlice bt1) i 1) as [lv|] eqn:Ev; [|done].
      simpl in Hrun. injection Hrun as <-. unfold status_ok. simpl.
      rewrite Hf1, Hl1 in *. rewrite (vec_set_length _ _ _ _ Ev).
      repeat split; try done.
      intros j Hj. destruct (decide (i = j)) as [->|Hne].
      + by eapply vec_set_lookup_eq.
      + rewrite (vec_set_lookup_ne _ _ _ _ _ Ev Hne). by apply Himp.
    - injection Hrun as <-. unfold status_ok. by rewrite Hn1, Hf1, Hl1. }
  destruct (zs i).
  - destruct (m_buffer_counter bt !! i) as [c0|]; [|done]. simpl in H.
    destruct (vec_set (m_buffer_counter bt) i (c0 + 1)) as [ct|]; [|done].
    exact (Hbt1 (set_buffer_counter bt ct) H Hn eq_refl eq_refl).
  - exact (Hbt1 bt H Hn eq_refl eq_refl).
Qed.

Lemma step_status_ok n bt bt' :
  step bt bt' -> status_ok n bt -> status_ok n bt'.
Proof.
  intros Hstep Hok.
  destruct Hstep as [i bt bt' H|zs kz bt bt' H|i bt bt' H|i bt bt' H].
  - unfold InitializeBufferData in H.
    destruct (vec_set (m_buffer_flush_counter bt) i 0) as [fl|]; [|done].
    simpl in H.
    destruct (vec_set (m_buffer_counter bt) i 0) as [ct|]; [|done].
    simpl in H. by injection H as <-.
  - unfold UpdateBufferData in H.
    eapply (for_buffers_invariant (status_ok n)); eauto.
    intros. by eapply UpdateBufferData_body_status_ok.
  - destruct Hok as (Hn & Hlf & Hll & Himp).
    assert (Hkeep := SetSnapshotFullStatus_keeps i).
    unfold SetSnapshotFullStatus in H.
    destruct (m_snapshot_full bt !! i) as [full|] eqn:Ei; [|done].
    simpl in H. destruct (full =? 1); [by injection H as <-|].
    destruct (m_lastValidZSlice bt !! i) as [lastz|] eqn:El; [|done].
    simpl in H. destruct (lastz =? 1) eqn:E1; [|by injection H as <-].
    destruct (vec_set (m_snapshot_full bt) i 1) as [sf|] eqn:Es; [|done].
    simpl in H. injection H as <-. unfold status_ok. simpl.
    rewrite (vec_set_length _ _ _ _ Es). repeat split; try done.
    intros j Hj. destruct (decide (i = j)) as [->|Hne].
    + apply Z.eqb_eq in E1. by subst.
    + apply Himp. erewrite <- vec_set_lookup_ne; eauto.
  - unfold BTD.Flush in H.
    destruct (SetSnapshotFullStatus i bt) as [bt1|] eqn:E1; [|done].
    simpl in H.
    destruct (ResetBufferCounter _ i) as [ct|]; [|done]. simpl in H.
    destruct (IncrementBufferFlushCounter _ i) as [fl|]; [|done].
    simpl in H. injection H as <-.
    assert (Hok1 : status_ok n bt1).
    { destruct Hok as (Hn & Hlf & Hll & Himp).
      unfold SetSnapshotFullStatus in E1.
      destruct (m_snapshot_full bt !! i) as [full|] eqn:Ei; [|done].
      simpl in E1. destruct (full =? 1); [by injection E1 as <-|].
      destruct (m_lastValidZSlice bt !! i) as [lastz|] eqn:El; [|done].
      simpl in E1. destruct (lastz =? 1) eqn:Elz; [|by injection E1 as <-].
      destruct (vec_set (m_snapshot_full bt) i 1) as [sf|] eqn:Es; [|done].
      simpl in E1. injection E1 as <-. unfold status_ok. simpl.
      rewrite (vec_set_length _ _ _ _ Es). repeat split; try done.
      intros j Hj. destruct (decide (i = j)) as [->|Hne].
      + apply Z.eqb_eq in Elz. by subst.
      + apply Himp. erewrite <- vec_set_lookup_ne; eauto. }
    exact Hok1.
Qed.

(** X9.  In every state reached from the set-up by the operations of
    the diagnostics, the two status vectors keep one entry per
    snapshot, and a snapshot is marked full only if its last valid
    slice has been recorded. *)
Theorem full_only_after_last_slice (n : nat) (size : Z) (bt : BTDiagnostics) :
  rtc step (DerivedInitData n size) bt ->
  m_num_buffers bt = n /\
  length (m_snapshot_full bt) = n /\
  length (m_lastValidZSlice bt) = n /\
  forall i, m_snapshot_full bt !! i = Some 1 ->
            m_lastValidZSlice bt !! i = Some 1.
Proof.
  intros Hrun. change (status_ok n bt).
  assert (Hinit : status_ok n (DerivedInitData n size)).
  { unfold status_ok, DerivedInitData. simpl.
    rewrite !length_replicate. repeat split; try done. }
  revert Hrun Hinit. generalize (DerivedInitData n size).
  intros bt0 Hrun. induction Hrun as [|bt0 bt1 bt2 Hs _ IH]; [done|].
  intros H0. apply IH. by eapply step_status_ok.
Qed.

Lemma UpdateBufferData_loop zs kz n :
  forall len s bt,
    (s + len = n)%nat ->
    length (m_buffer_counter bt) = n ->
    length (m_lastValidZSlice bt) = n ->
    exists bt',
      for_buffers (UpdateBufferData_body zs kz) (seq s len) bt = Some bt' /\
      m_snapshot_full bt' = m_snapshot_full bt /\
      m_buffer_flush_counter bt' = m_buffer_flush_counter bt /\
      m_num_buffers bt' = m_num_buffers bt /\
      (forall i c, m_buffer_counter bt !! i = Some c ->
         m_buffer_counter bt' !! i
         = Some (if bool_decide (s <= i)%nat && zs i then c + 1 else c)) /\
      (forall i v, m_lastValidZSlice bt !! i = Some v ->
         m_lastValidZSlice bt' !! i
         = Some (if bool_decide (s <= i)%nat && (kz i =? 0) then 1 else v)).
Proof.
  induction len as [|len IH]; intros s bt Hs Hlc Hll.
  - exists bt. simpl. repeat split; try done.
    + intros i c Hi. pose proof (lookup_lt_Some _ _ _ Hi).
      rewrite bool_decide_eq_false_2 by lia. done.
    + intros i v Hi. pose proof (lookup_lt_Some _ _ _ Hi).
      rewrite bool_decide_eq_false_2 by lia. done.
  - simpl.
    destruct (lookup_lt_is_Some_2 (m_buffer_counter bt) s) as [c0 Hc0]; [lia|].
    (* the state after the body at index [s] *)
    set (ct := if zs s then <[s := c0 + 1]> (m_buffer_counter bt)
               else m_buffer_counter bt).
    set (lv := if kz s =? 0 then <[s := 1]> (m_lastValidZSlice bt)
               else m_lastValidZSlice bt).
    set (bt1 := mkBTD (m_num_buffers bt) (m_buffer_size bt)
                      (m_snapshot_full bt) lv ct (m_buffer_flush_counter bt)).
    assert (Hbody : UpdateBufferData_body zs kz bt s = Some bt1).
    { unfold UpdateBufferData_body, bt1, ct, lv, vec_set. rewrite Hc0.
      destruct (zs s); simpl.
      - rewrite decide_True by lia. simpl.
        destruct (kz s =? 0); simpl; [|done].
        rewrite decide_True by lia. done.
      - destruct (kz s =? 0); simpl; [|by destruct bt].
        rewrite decide_True by lia. done. }
    rewrite Hbody. simpl.
    destruct (IH (S s) bt1) as (bt' & Hrun & Hf & Hfl & Hnb & Hct & Hlv).
    { lia. }
    { unfold bt1, ct. simpl. destruct (zs s); by rewrite ?length_insert. }
    { unfold bt1, lv. simpl. destruct (kz s =? 0); by rewrite ?length_insert. }
    exists bt'. split; [done|]. split; [done|]. split; [done|].
    split; [done|]. split.
    + intros i c Hi.
      destruct (decide (i = s)) as [->|Hne].
      * assert (H1 : m_buffer_counter bt1 !! s
                     = Some (if zs s then c + 1 else c)).
        { unfold bt1, ct. simpl. rewrite Hc0 in Hi. injection Hi as ->.
          destruct (zs s); [|done]. apply list_lookup_insert_eq. lia. }
        rewrite (Hct _ _ H1).
        rewrite bool_decide_eq_false_2 by lia.
        rewrite bool_decide_eq_true_2 by lia. done.
      * assert (H1 : m_buffer_counter bt1 !! i = Some c).
        { unfold bt1, ct. simpl. destruct (zs s); [|done].
          rewrite list_lookup_insert_ne; done. }
        rewrite (Hct _ _ H1). f_equal.
        destruct (decide (S s <= i)%nat).
        -- rewrite !bool_decide_eq_true_2 by lia. done.
        -- rewrite !bool_decide_eq_false_2 by lia. done.
    + intros i v Hi.
      destruct (decide (i = s)) as [->|Hne].
      * assert (H1 : m_lastValidZSlice bt1 !! s
                     = Some (if kz s =? 0 then 1 else v)).
        { unfold bt1, lv. simpl. destruct (kz s =? 0); [|done].
          apply list_lookup_insert_eq. lia. }
        rewrite (Hlv _ _ H1).
        rewrite bool_decide_eq_false_2 by lia.
        rewrite bool_decide_eq_true_2 by lia. done.
      * assert (H1 : m_lastValidZSlice bt1 !! i = Some v).
        { unfold bt1, lv. simpl. destruct (kz s =? 0); [|done].
          rewrite list_lookup_insert_ne; done. }
        rewrite (Hlv _ _ H1). f_equal.
        destruct (decide (S s <= i)%nat).
        -- rewrite !bool_decide_eq_true_2 by lia. done.
        -- rewrite !bool_decide_eq_false_2 by lia. done.
Qed.

(** X10.  On a state whose counters and status vector have one entry
    per snapshot, [UpdateBufferData] runs through: the counter of every
    snapshot whose slice is in the domain grows by one, the others
    keep their value, the last-valid-slice flag becomes 1 exactly for
    the snapshots whose lab-frame index is 0, and the full status and
    the flush counters are not touched. *)
Theorem UpdateBufferData_effect (zs : nat -> bool) (kz : nat -> Z)
    (bt : BTDiagnostics) :
  length (m_buffer_counter bt) = m_num_buffers bt ->
  length (m_lastValidZSlice bt) = m_num_buffers bt ->
  exists bt',
    UpdateBufferData zs kz bt = Some bt' /\
    m_snapshot_full bt' = m_snapshot_full bt /\
    m_buffer_flush_counter bt' = m_buffer_flush_counter bt /\
    (forall i c, m_buffer_counter bt !! i = Some c ->
       m_buffer_counter bt' !! i = Some (if zs i then c + 1 else c)) /\
    (forall i v, m_lastValidZSlice bt !! i = Some v ->
       m_lastValidZSlice bt' !! i = Some (if kz i =? 0 then 1 else v)).
Proof.
  intros Hlc Hll.
  destruct (UpdateBufferData_loop zs kz (m_num_buffers bt)
              (m_num_buffers bt) 0 bt) as (bt' & Hrun & Hf & Hfl & _ & Hct & Hlv);
    try done.
  exists bt'. split; [done|]. split; [done|]. split; [done|]. split.
  - intros i c Hi. rewrite (Hct _ _ Hi).
    by rewrite bool_decide_eq_true_2 by lia.
  - intros i v Hi. rewrite (Hlv _ _ Hi).
    by rewrite bool_decide_eq_true_2 by lia.
Qed.

End BTD_more.

(** ** Back-transformed diagnostics: particle counters and index
    boxes *)

Section BTDBuffers_more.
Import BTDBuffers.

Lemma add_in_buffer_lookup :
  forall n isp flushed in_buffer,
    (isp + n = length flushed)%nat ->
    (length flushed <= length in_buffer)%nat ->
    (forall j x y, (isp <= j)%nat ->
       flushed !! j = Some x -> in_buffer !! j = Some y ->
       INT_MIN <= x + y <= INT_MAX) ->
    exists r,
      add_in_buffer n isp flushed in_buffer = Some r /\
      length r = length flushed /\
      forall j, r !! j = if decide (isp <= j)%nat
                         then f ← flushed !! j; b ← in_buffer !! j; Some (f + b)
                         else flushed !! j.
Proof.
  induction n as [|n IH]; intros isp flushed in_buffer Hn Hle Hrange.
  - exists flushed. simpl. repeat split; try done.
    intros j. case_decide; [|done].
    rewrite (lookup_ge_None_2 flushed j) by lia. done.
  - simpl.
    destruct (lookup_lt_is_Some_2 flushed isp) as [f Hf]; [lia|].
    destruct (lookup_lt_is_Some_2 in_buffer isp) as [b Hb]; [lia|].
    rewrite Hf, Hb. simpl. unfold int_add.
    rewrite decide_True by (by apply (Hrange isp)). simpl.
    destruct (IH (S isp) (<[isp := f + b]> flushed) in_buffer)
      as (r & Hr & Hlen & Hlook).
    { rewrite length_insert. lia. }
    { rewrite length_insert. lia. }
    { intros j x y Hj Hx Hy. rewrite list_lookup_insert_ne in Hx by lia.
      apply (Hrange j); [lia|done|done]. }
    exists r. split; [done|]. rewrite length_insert in Hlen. split; [done|].
    intros j. rewrite Hlook.
    destruct (decide (j = isp)) as [->|Hne].
    + rewrite decide_False by lia. rewrite decide_True by lia.
      rewrite Hf, Hb. simpl. apply list_lookup_insert_eq.
      by eapply lookup_lt_Some.
    + rewrite list_lookup_insert_ne by done.
      destruct (decide (S isp <= j)%nat).
      * by rewrite decide_True by lia.
      * by rewrite decide_False by lia.
Qed.

Lemma sum_list_zip_with_add :
  forall f b : list Z, length f = length b ->
    sum_list (zip_with Z.add f b) = sum_list f + sum_list b.
Proof.
  unfold sum_list. induction f as [|x f IH]; intros [|y b] Hlen; try done.
  simpl in *. rewrite IH by lia. lia.
Qed.

Lemma sum_list_replicate_0 (n : nat) : sum_list (replicate n 0) = 0.
Proof. unfold sum_list. induction n as [|n IH]; simpl; lia. Qed.

(** X11.  The two particle counters at a flush.  Take a snapshot whose
    two vectors have one entry per species and whose counters can be
    added without leaving the range of [int].  The pair of calls that
    [Flush] makes adds, species by species, the number of particles in
    the buffer to the number already flushed, and then sets the number
    in the buffer to zero; the total number of particles counted for
    the snapshot is the same before and after, and the counters of the
    other snapshots are not touched. *)
Theorem flush_counters_conserve_particles (i_buffer : nat) (c : counters)
    (f b : list Z) :
  m_totalParticles_flushed_already c !! i_buffer = Some f ->
  m_totalParticles_in_buffer c !! i_buffer = Some b ->
  length f = length b ->
  (forall isp x y, f !! isp = Some x -> b !! isp = Some y ->
     INT_MIN <= x + y <= INT_MAX) ->
  exists c',
    flush_counters i_buffer c = Some c' /\
    m_totalParticles_flushed_already c' !! i_buffer
    = Some (zip_with Z.add f b) /\
    m_totalParticles_in_buffer c' !! i_buffer
    = Some (replicate (length b) 0) /\
    sum_list (zip_with Z.add f b) + sum_list (replicate (length b) 0)
    = sum_list f + sum_list b /\
    forall j, j <> i_buffer ->
      m_totalParticles_flushed_already c' !! j
      = m_totalParticles_flushed_already c !! j /\
      m_totalParticles_in_buffer c' !! j = m_totalParticles_in_buffer c !! j.
Proof.
  intros Hf Hb Hlen Hrange.
  assert (Hadd : exists in_buffer,
            (if decide (length f = 0%nat) then Some []
             else m_totalParticles_in_buffer c !! i_buffer) = Some in_buffer /\
            add_in_buffer (length f) 0 f in_buffer = Some (zip_with Z.add f b)).
  { case_decide as Hz.
    - exists []. split; [done|].
      destruct f; [|done]. destruct b; [|done]. done.
    - exists b. split; [done|].
      destruct (add_in_buffer_lookup (length f) 0 f b) as (r & Hr & Hl & Hlook);
        [lia|lia|by intros j x y _; apply Hrange|].
      rewrite Hr. f_equal. apply list_eq. intros j.
      rewrite Hlook, decide_True by lia. rewrite lookup_zip_with.
      destruct (f !! j); [|done]. simpl. by destruct (b !! j). }
  destruct Hadd as (in_buffer & Hin & Hadd).
  unfold flush_counters, UpdateTotalParticlesFlushed. rewrite Hf. simpl.
  rewrite Hin. simpl. rewrite Hadd. simpl.
  unfold ResetTotalParticlesInBuffer. simpl. rewrite Hb. simpl.
  eexists. split; [done|]. simpl.
  split. { apply list_lookup_insert_eq. by eapply lookup_lt_Some. }
  split. { apply list_lookup_insert_eq. by eapply lookup_lt_Some. }
  split. { rewrite sum_list_zip_with_add, sum_list_replicate_0 by done. lia. }
  intros j Hj. by rewrite !list_lookup_insert_ne by done.
Qed.

Local Open Scope R_scope.

Lemma ceilZ_bounds (x : R) : IZR (ceilZ x) - 1 < x <= IZR (ceilZ x).
Proof.
  unfold ceilZ. rewrite opp_IZR. destruct (base_Int_part (- x)). lra.
Qed.

Lemma div_ge_mult (a x d : R) : 0 < d -> x / d <= a -> x <= a * d.
Proof.
  intros Hd H. replace x with (x / d * d) by (field; lra). nra.
Qed.

Lemma div_gt_mult (a x d : R) : 0 < d -> a < x / d -> a * d < x.
Proof.
  intros Hd H. replace x with (x / d * d) by (field; lra). nra.
Qed.

Lemma num_z_cells_bounds (ncells size : Z) :
  (0 < size)%Z ->
  (ncells <= num_z_cells_in_snapshot ncells size < ncells + size)%Z.
Proof.
  intros Hsize. unfold num_z_cells_in_snapshot, max_buffer_multifabs.
  assert (Hs : 0 < IZR size) by (by apply IZR_lt).
  destruct (ceilZ_bounds (IZR ncells / IZR size)) as [Hlo Hhi].
  set (m := ceilZ (IZR ncells / IZR size)) in *.
  apply div_ge_mult in Hhi; [|done]. apply div_gt_mult in Hlo; [|done].
  rewrite <- mult_IZR in Hhi. apply le_IZR in Hhi.
  replace ((IZR m - 1) * IZR size) with (IZR (m * size - size)) in Hlo
    by (rewrite minus_IZR, mult_IZR; ring).
  apply lt_IZR in Hlo. lia.
Qed.

Lemma IntVect_get_insert (v : amrex.IntVect) (d : nat) (x : Z) :
  (d < length v)%nat -> amrex.IntVect_get (<[d := x]> v) d = x.
Proof.
  intros Hd. unfold amrex.IntVect_get.
  rewrite (nth_lookup_Some _ _ _ x); [done|].
  by apply list_lookup_insert_eq.
Qed.

(** X12.  The index boxes along the moving window.  For a buffer of
    [m_buffer_size > 0] cells, the box of the buffer holds exactly
    [m_buffer_size] cells and the box of the snapshot a whole number of
    buffers: at least the [ncells] lab-frame cells of the snapshot and
    less than one buffer more.  Both boxes end at the same lab-frame
    index, and when the snapshot has a cell at all the buffer lies
    inside it. *)
Theorem snapshot_box_holds_whole_buffers (dir : nat)
    (k_lab ncells m_buffer_size : Z) (m_snapshot_box m_buffer_box : amrex.Box) :
  (dir < length (amrex.smallEnd m_snapshot_box))%nat ->
  (dir < length (amrex.bigEnd m_snapshot_box))%nat ->
  (dir < length (amrex.smallEnd m_buffer_box))%nat ->
  (dir < length (amrex.bigEnd m_buffer_box))%nat ->
  (0 < m_buffer_size)%Z ->
  let sbx := snapshot_box dir k_lab ncells m_buffer_size m_snapshot_box in
  let bbx := buffer_box dir k_lab m_buffer_size m_buffer_box in
  (Box_length bbx dir = m_buffer_size /\
   Box_length sbx dir
   = max_buffer_multifabs ncells m_buffer_size * m_buffer_size /\
   ncells <= Box_length sbx dir < ncells + m_buffer_size /\
   amrex.IntVect_get (amrex.bigEnd sbx) dir
   = amrex.IntVect_get (amrex.bigEnd bbx) dir /\
   (0 < ncells ->
    amrex.IntVect_get (amrex.smallEnd sbx) dir
    <= amrex.IntVect_get (amrex.smallEnd bbx) dir))%Z.
Proof.
  intros H1 H2 H3 H4 Hsize sbx bbx.
  pose proof (num_z_cells_bounds ncells m_buffer_size Hsize) as Hn.
  unfold sbx, bbx, snapshot_box, buffer_box, Box_length, setBig, setSmall.
  simpl. rewrite !IntVect_get_insert by done.
  fold (num_z_cells_in_snapshot ncells m_buffer_size).
  split; [lia|]. split; [lia|]. split; [lia|]. split; [done|].
  intros Hcells. unfold num_z_cells_in_snapshot in *.
  assert (1 <= max_buffer_multifabs ncells m_buffer_size)%Z by nia.
  nia.
Qed.

End BTDBuffers_more.

(** ** Initialisation: the base grids and the guard cells *)

Section InitData_more.
Import amrex InitData.

Lemma block_hi_next (sz extra domlo i : Z) :
  block_hi sz extra domlo i + 1 = block_lo sz extra domlo (i + 1).
Proof.
  unfold block_hi, block_lo.
  destruct (Z.ltb_spec i extra), (Z.ltb_spec (i + 1) extra); nia.
Qed.

Lemma block_lo_0 (sz extra domlo : Z) :
  0 <= extra -> block_lo sz extra domlo 0 = domlo.
Proof. intros He. unfold block_lo. destruct (Z.ltb_spec 0 extra); lia. Qed.

Lemma block_lo_last (sz extra domlo n : Z) :
  extra < n -> block_lo sz extra domlo n = domlo + (n * sz + extra).
Proof. intros He. unfold block_lo. destruct (Z.ltb_spec n extra); lia. Qed.

Lemma block_cells (sz extra domlo i : Z) :
  block_hi sz extra domlo i - block_lo sz extra domlo i + 1
  = if i <? extra then sz + 1 else sz.
Proof. unfold block_hi, block_lo. destruct (i <? extra); lia. Qed.

Lemma block_lo_ge (sz extra domlo i : Z) :
  0 <= sz -> 0 <= extra -> 0 <= i -> domlo <= block_lo sz extra domlo i.
Proof.
  intros Hsz He Hi. unfold block_lo. destruct (Z.ltb_spec i extra); nia.
Qed.

Lemma upto_S (m : nat) :
  upto (Z.of_nat (S m)) = upto (Z.of_nat m) ++ [Z.of_nat m].
Proof.
  unfold upto. rewrite !Nat2Z.id, seq_S, fmap_app. done.
Qed.

Lemma elem_of_upto (n i : Z) : i ∈ upto n -> 0 <= i < n.
Proof.
  unfold upto. intros Hi. apply list_elem_of_fmap in Hi as (m & -> & Hm).
  apply elem_of_seq in Hm. lia.
Qed.

(** Along one direction, the blocks [0 .. m-1] hold the index [x]
    once if it lies between the lower end of the domain and the start
    of block [m], and not at all otherwise. *)
Lemma in_block_count (sz extra domlo x : Z) :
  0 <= sz -> 0 <= extra ->
  forall m : nat,
    length (List.filter (in_block sz extra domlo x) (upto (Z.of_nat m)))
    = if (domlo <=? x) && (x <? block_lo sz extra domlo (Z.of_nat m))
      then 1%nat else 0%nat.
Proof.
  intros Hsz He. induction m as [|m IH].
  - change (Z.of_nat 0) with 0. rewrite block_lo_0 by done. simpl.
    destruct (Z.leb_spec domlo x), (Z.ltb_spec x domlo); simpl; try done; lia.
  - rewrite upto_S, List.filter_app, length_app, IH.
    pose proof (block_hi_next sz extra domlo (Z.of_nat m)) as Hnext.
    pose proof (block_cells sz extra domlo (Z.of_nat m)) as Hcells.
    pose proof (block_lo_ge sz extra domlo (Z.of_nat m) Hsz He) as Hge.
    replace (Z.of_nat (S m)) with (Z.of_nat m + 1) by lia.
    assert (Hmono : block_lo sz extra domlo (Z.of_nat m)
                    <= block_lo sz extra domlo (Z.of_nat m + 1)).
    { destruct (Z.of_nat m <? extra); lia. }
    simpl. unfold in_block.
    destruct (Z.leb_spec domlo x),
             (Z.ltb_spec x (block_lo sz extra domlo (Z.of_nat m))),
             (Z.ltb_spec x (block_lo sz extra domlo (Z.of_nat m + 1))),
             (Z.leb_spec (block_lo sz extra domlo (Z.of_nat m)) x),
             (Z.leb_spec x (block_hi sz extra domlo (Z.of_nat m)));
      simpl; try done; lia.
Qed.

Lemma filter_bind_count {A B : Type} (f : B -> bool) (a : A -> bool)
    (g : A -> list B) (m : nat) (l : list A) :
  (forall x, length (List.filter f (g x))
             = ((if a x then 1 else 0) * m)%nat) ->
  length (List.filter f (l ≫= g)) = (length (List.filter a l) * m)%nat.
Proof.
  intros Hg. induction l as [|x l IH]; [done|].
  change ((x :: l) ≫= g) with (g x ++ (l ≫= g)).
  rewrite List.filter_app, length_app, IH, Hg. simpl.
  destruct (a x); simpl; lia.
Qed.

Lemma IntVect_get_imap (f : nat -> Z -> Z) (v : IntVect) (d : nat) :
  (d < length v)%nat ->
  IntVect_get (imap f v) d = f d (IntVect_get v d).
Proof.
  intros Hd. destruct (lookup_lt_is_Some_2 v d Hd) as [x Hx].
  unfold IntVect_get.
  rewrite (nth_lookup_Some _ _ _ (f d x)), (nth_lookup_Some _ _ _ x); try done.
  by rewrite list_lookup_imap, Hx.
Qed.

Lemma IntVect_allLE_get (a b : IntVect) (d : nat) :
  length a = length b -> (d < length a)%nat ->
  IntVect_allLE a b = true -> IntVect_get a d <= IntVect_get b d.
Proof.
  revert b d. induction a as [|x a IH]; intros [|y b] d Hlen Hd H;
    simpl in *; try lia.
  unfold IntVect_allLE in H. simpl in H.
  apply andb_true_iff in H as [Hxy H].
  destruct d as [|d]; unfold IntVect_get; simpl; [lia|].
  apply IH; [lia|lia|done].
Qed.

(** The cut of one direction: the quotient and the remainder of the
    division of [len] cells among [n] blocks. *)
Lemma quot_cut (len n : Z) :
  0 <= len -> 0 < n ->
  0 <= Z.quot len n /\
  0 <= len - Z.quot len n * n < n.
Proof.
  intros Hlen Hn. rewrite Z.quot_div_nonneg by lia.
  pose proof (Z.div_mod len n). pose proof (Z.mod_pos_bound len n).
  pose proof (Z.div_pos len n). nia.
Qed.

Lemma not_all_zero (l : list Z) :
  Forall (fun n => 0 < n) l -> l <> [] ->
  forallb (fun n => n =? 0) l = false /\ existsb (fun n => n =? 0) l = false.
Proof.
  intros Hl Hne. split.
  - destruct l as [|n l]; [done|]. apply Forall_cons in Hl as [Hn _].
    simpl. by replace (n =? 0) with false by lia.
  - clear Hne. induction Hl as [|n l Hn _ IH]; [done|].
    simpl. rewrite IH. by replace (n =? 0) with false by lia.
Qed.

Lemma ltb_succ_leb (x h : Z) : (x <? h + 1) = (x <=? h).
Proof. destruct (Z.ltb_spec x (h + 1)), (Z.leb_spec x h); try done; lia. Qed.

Lemma in_block_count_Z (sz extra domlo x n : Z) :
  0 <= sz -> 0 <= extra -> 0 <= n ->
  length (List.filter (in_block sz extra domlo x) (upto n))
  = if (domlo <=? x) && (x <? block_lo sz extra domlo n)
    then 1%nat else 0%nat.
Proof.
  intros Hsz He Hn. rewrite <- (Z2Nat.id n) by done.
  by apply in_block_count.
Qed.

Local Ltac box_cases :=
  unfold in_block, Box_contains, IntVect_get;
  cbn [List.filter nth smallEnd bigEnd];
  repeat match goal with
         | |- context [?a <=? ?b] => destruct (a <=? b)
         end;
  reflexivity.

Lemma base_grids_count (dim : WARPX_DIM) (numprocs domlo sz extra : IntVect)
    (x y z : Z) :
  (forall d, 0 <= IntVect_get sz d) ->
  (forall d, 0 <= IntVect_get extra d) ->
  (forall d, 0 <= IntVect_get numprocs d) ->
  let covered d v :=
    (IntVect_get domlo d <=? v) &&
    (v <? block_lo (IntVect_get sz d) (IntVect_get extra d)
            (IntVect_get domlo d) (IntVect_get numprocs d)) in
  length (List.filter (fun bx => Box_contains bx x y z)
            (base_grids dim numprocs domlo sz extra))
  = match dim with
    | DIM_3D =>
        if covered 0%nat x && covered 1%nat y && covered 2%nat z
        then 1%nat else 0%nat
    | DIM_XZ | DIM_RZ =>
        if covered 0%nat x && covered 1%nat y && (0 <=? z) && (z <=? 0)
        then 1%nat else 0%nat
    | DIM_1D_Z =>
        if covered 0%nat x && (0 <=? y) && (y <=? 0) && (0 <=? z) && (z <=? 0)
        then 1%nat else 0%nat
    end.
Proof.
  intros Hsz He Hn covered.
  assert (Hc : forall d v,
    length (List.filter (in_block (IntVect_get sz d) (IntVect_get extra d)
                           (IntVect_get domlo d) v)
              (upto (IntVect_get numprocs d)))
    = if covered d v then 1%nat else 0%nat).
  { intros d v. by apply in_block_count_Z. }
  unfold base_grids.
  set (in0 := in_block (IntVect_get sz 0) (IntVect_get extra 0)
                (IntVect_get domlo 0) x) in *.
  set (in1 := in_block (IntVect_get sz 1) (IntVect_get extra 1)
                (IntVect_get domlo 1) y) in *.
  set (in2 := in_block (IntVect_get sz 2) (IntVect_get extra 2)
                (IntVect_get domlo 2) z) in *.
  set (f := fun bx => Box_contains bx x y z).
  destruct dim.
  - rewrite (filter_bind_count f in0 _
               (if (0 <=? y) && (y <=? 0) && (0 <=? z) && (z <=? 0)
                then 1%nat else 0%nat)).
    + unfold in0. rewrite Hc.
      destruct (covered 0%nat x), (0 <=? y), (y <=? 0), (0 <=? z), (z <=? 0);
        reflexivity.
    + intros i. unfold f, in0. box_cases.
  -
    assert (H0 : forall j,
      length (List.filter f
                (i ← upto (IntVect_get numprocs 0);
                 [mkBox [block_lo (IntVect_get sz 0) (IntVect_get extra 0)
                           (IntVect_get domlo 0) i;
                         block_lo (IntVect_get sz 1) (IntVect_get extra 1)
                           (IntVect_get domlo 1) j]
                        [block_hi (IntVect_get sz 0) (IntVect_get extra 0)
                           (IntVect_get domlo 0) i;
                         block_hi (IntVect_get sz 1) (IntVect_get extra 1)
                           (IntVect_get domlo 1) j]]))
      = (length (List.filter in0 (upto (IntVect_get numprocs 0)))
         * (if (in1 j && (0 <=? z) && (z <=? 0))%Z then 1 else 0))%nat).
    { intros j. apply filter_bind_count. intros i. unfold f, in0, in1.
      box_cases. }
    rewrite (filter_bind_count f in1 _
               (length (List.filter in0 (upto (IntVect_get numprocs 0)))
                * (if ((0 <=? z) && (z <=? 0))%Z then 1 else 0))%nat).
    + unfold in0, in1. rewrite !Hc.
      destruct (covered 0%nat x), (covered 1%nat y), (0 <=? z), (z <=? 0);
        reflexivity.
    + intros j. rewrite H0.
      destruct (in1 j), (0 <=? z), (z <=? 0); simpl; lia.
  -
    assert (H0 : forall j,
      length (List.filter f
                (i ← upto (IntVect_get numprocs 0);
                 [mkBox [block_lo (IntVect_get sz 0) (IntVect_get extra 0)
                           (IntVect_get domlo 0) i;
                         block_lo (IntVect_get sz 1) (IntVect_get extra 1)
                           (IntVect_get domlo 1) j]
                        [block_hi (IntVect_get sz 0) (IntVect_get extra 0)
                           (IntVect_get domlo 0) i;
                         block_hi (IntVect_get sz 1) (IntVect_get extra 1)
                           (IntVect_get domlo 1) j]]))
      = (length (List.filter in0 (upto (IntVect_get numprocs 0)))
         * (if (in1 j && (0 <=? z) && (z <=? 0))%Z then 1 else 0))%nat).
    { intros j. apply filter_bind_count. intros i. unfold f, in0, in1.
      box_cases. }
    rewrite (filter_bind_count f in1 _
               (length (List.filter in0 (upto (IntVect_get numprocs 0)))
                * (if ((0 <=? z) && (z <=? 0))%Z then 1 else 0))%nat).
    + unfold in0, in1. rewrite !Hc.
      destruct (covered 0%nat x), (covered 1%nat y), (0 <=? z), (z <=? 0);
        reflexivity.
    + intros j. rewrite H0.
      destruct (in1 j), (0 <=? z), (z <=? 0); simpl; lia.
  - assert (H0 : forall j k,
      length (List.filter f
                (i ← upto (IntVect_get numprocs 0);
                 [mkBox [block_lo (IntVect_get sz 0) (IntVect_get extra 0)
                           (IntVect_get domlo 0) i;
                         block_lo (IntVect_get sz 1) (IntVect_get extra 1)
                           (IntVect_get domlo 1) j;
                         block_lo (IntVect_get sz 2) (IntVect_get extra 2)
                           (IntVect_get domlo 2) k]
                        [block_hi (IntVect_get sz 0) (IntVect_get extra 0)
                           (IntVect_get domlo 0) i;
                         block_hi (IntVect_get sz 1) (IntVect_get extra 1)
                           (IntVect_get domlo 1) j;
                         block_hi (IntVect_get sz 2) (IntVect_get extra 2)
                           (IntVect_get domlo 2) k]]))
      = (length (List.filter in0 (upto (IntVect_get numprocs 0)))
         * (if in1 j && in2 k then 1 else 0))%nat).
    { intros j k. apply filter_bind_count. intros i. unfold f, in0, in1, in2.
      box_cases. }
    assert (H1 : forall k,
      length (List.filter f
                (j ← upto (IntVect_get numprocs 1);
                 i ← upto (IntVect_get numprocs 0);
                 [mkBox [block_lo (IntVect_get sz 0) (IntVect_get extra 0)
                           (IntVect_get domlo 0) i;
                         block_lo (IntVect_get sz 1) (IntVect_get extra 1)
                           (IntVect_get domlo 1) j;
                         block_lo (IntVect_get sz 2) (IntVect_get extra 2)
                           (IntVect_get domlo 2) k]
                        [block_hi (IntVect_get sz 0) (IntVect_get extra 0)
                           (IntVect_get domlo 0) i;
                         block_hi (IntVect_get sz 1) (IntVect_get extra 1)
                           (IntVect_get domlo 1) j;
                         block_hi (IntVect_get sz 2) (IntVect_get extra 2)
                           (IntVect_get domlo 2) k]]))
      = (length (List.filter in1 (upto (IntVect_get numprocs 1)))
         * (length (List.filter in0 (upto (IntVect_get numprocs 0)))
            * (if in2 k then 1 else 0)))%nat).
    { intros k. apply filter_bind_count. intros j. rewrite H0.
      destruct (in1 j), (in2 k); simpl; lia. }
    rewrite (filter_bind_count f in2 _
               (length (List.filter in1 (upto (IntVect_get numprocs 1)))
                * length (List.filter in0 (upto (IntVect_get numprocs 0))))%nat).
    + unfold in0, in1, in2. rewrite !Hc.
      destruct (covered 0%nat x), (covered 1%nat y), (covered 2%nat z);
        reflexivity.
    + intros k. rewrite H1. destruct (in2 k); simpl; lia.
Qed.

Lemma IntVect_get_pos (v : IntVect) (d : nat) :
  Forall (fun n => 0 < n) v -> (d < length v)%nat -> 0 < IntVect_get v d.
Proof.
  intros Hv Hd. destruct (lookup_lt_is_Some_2 v d Hd) as [n Hn].
  unfold IntVect_get. rewrite (nth_lookup_Some _ _ _ n) by done.
  by apply (Forall_lookup_1 _ _ _ _ Hv Hn).
Qed.

Lemma IntVect_get_beyond (v : IntVect) (d : nat) :
  (length v <= d)%nat -> IntVect_get v d = 0.
Proof. intros Hd. unfold IntVect_get. by apply nth_overflow. Qed.

(** X15.  The base grids tile the domain.  For a domain that is not
    empty and a positive number of blocks along every direction,
    [PostProcessBaseGrids] replaces the box array by boxes such that
    every point of the domain lies in exactly one of them and no point
    outside the domain lies in any. *)
Theorem PostProcessBaseGrids_tiles_domain (dim : WARPX_DIM)
    (numprocs : IntVect) (dom : Box) (ba0 : BoxArray) :
  length numprocs = AMREX_SPACEDIM dim ->
  length (smallEnd dom) = AMREX_SPACEDIM dim ->
  length (bigEnd dom) = AMREX_SPACEDIM dim ->
  Forall (fun n => 0 < n) numprocs ->
  IntVect_allLE (smallEnd dom) (bigEnd dom) = true ->
  exists ba,
    PostProcessBaseGrids dim numprocs dom ba0 = Some ba /\
    forall i j k,
      length (List.filter (fun bx => Box_contains bx i j k) (boxes ba))
      = if Box_contains dom i j k then 1%nat else 0%nat.
Proof.
  intros Hnp Hlo Hhi Hpos Hle.
  destruct (not_all_zero numprocs Hpos) as [Hall Hex].
  { intros ->. by destruct dim. }
  unfold PostProcessBaseGrids. rewrite Hall, Hex.
  eexists. split; [reflexivity|]. intros x y z. cbn [boxes].
  set (sz := imap _ (Box_size dom)).
  set (extra := imap _ (Box_size dom)).
  assert (Hlen : forall d, (d < AMREX_SPACEDIM dim)%nat ->
            IntVect_get (Box_size dom) d
            = IntVect_get (bigEnd dom) d - IntVect_get (smallEnd dom) d + 1 /\
            1 <= IntVect_get (Box_size dom) d).
  { intros d Hd. unfold Box_size. rewrite IntVect_get_imap by lia.
    split; [done|].
    assert (Hd' : (d < length (smallEnd dom))%nat) by lia.
    assert (Hll : length (smallEnd dom) = length (bigEnd dom)) by lia.
    pose proof (IntVect_allLE_get _ _ d Hll Hd' Hle). lia. }
  assert (Hsz : forall d, (d < AMREX_SPACEDIM dim)%nat ->
            IntVect_get sz d
            = Z.quot (IntVect_get (Box_size dom) d) (IntVect_get numprocs d)).
  { intros d Hd. unfold sz. rewrite IntVect_get_imap; [done|].
    unfold Box_size. rewrite length_imap. lia. }
  assert (Hextra : forall d, (d < AMREX_SPACEDIM dim)%nat ->
            IntVect_get extra d
            = IntVect_get (Box_size dom) d
              - IntVect_get sz d * IntVect_get numprocs d).
  { intros d Hd. unfold extra. rewrite IntVect_get_imap; [done|].
    unfold Box_size. rewrite length_imap. lia. }
  assert (Hcut : forall d, (d < AMREX_SPACEDIM dim)%nat ->
            0 <= IntVect_get sz d /\
            0 <= IntVect_get extra d < IntVect_get numprocs d /\
            IntVect_get numprocs d * IntVect_get sz d + IntVect_get extra d
            = IntVect_get (bigEnd dom) d - IntVect_get (smallEnd dom) d + 1).
  { intros d Hd. destruct (Hlen d Hd) as [Hl1 Hl2].
    assert (Hd' : (d < length numprocs)%nat) by lia.
    pose proof (IntVect_get_pos numprocs d Hpos Hd') as Hn.
    destruct (quot_cut (IntVect_get (Box_size dom) d)
                (IntVect_get numprocs d)) as [Hq1 Hq2]; [lia|lia|].
    rewrite (Hextra d Hd), (Hsz d Hd), <- Hl1. lia. }
  assert (Hsigns : forall d,
            0 <= IntVect_get sz d /\ 0 <= IntVect_get extra d /\
            0 <= IntVect_get numprocs d).
  { intros d. destruct (decide (d < AMREX_SPACEDIM dim)%nat) as [Hd|Hd].
    - destruct (Hcut d Hd) as (H1 & H2 & _). lia.
    - rewrite !IntVect_get_beyond; [lia|lia|..];
        unfold extra, sz, Box_size; rewrite ?length_imap; lia. }
  rewrite base_grids_count by (intros d; apply Hsigns). cbv zeta.
  assert (Hcov : forall d v, (d < AMREX_SPACEDIM dim)%nat ->
            (v <? block_lo (IntVect_get sz d) (IntVect_get extra d)
                    (IntVect_get (smallEnd dom) d) (IntVect_get numprocs d))
            = (v <=? IntVect_get (bigEnd dom) d)).
  { intros d v Hd. destruct (Hcut d Hd) as (H1 & H2 & H3).
    rewrite block_lo_last by lia. rewrite <- ltb_succ_leb. f_equal. lia. }
  unfold Box_contains.
  destruct dim; simpl in Hlo, Hhi;
    rewrite !Hcov by (simpl; lia);
    rewrite ?(IntVect_get_beyond (smallEnd dom) 1),
            ?(IntVect_get_beyond (bigEnd dom) 1),
            ?(IntVect_get_beyond (smallEnd dom) 2),
            ?(IntVect_get_beyond (bigEnd dom) 2) by lia;
    by rewrite ?andb_assoc.
Qed.

Lemma base_grids_elem (dim : WARPX_DIM) (numprocs domlo sz extra : IntVect)
    (bx : Box) :
  bx ∈ base_grids dim numprocs domlo sz extra ->
  length (bigEnd bx) = AMREX_SPACEDIM dim /\
  forall d, (d < AMREX_SPACEDIM dim)%nat ->
    exists i, 0 <= i < IntVect_get numprocs d /\
      IntVect_get (smallEnd bx) d
      = block_lo (IntVect_get sz d) (IntVect_get extra d)
                 (IntVect_get domlo d) i /\
      IntVect_get (bigEnd bx) d
      = block_hi (IntVect_get sz d) (IntVect_get extra d)
                 (IntVect_get domlo d) i.
Proof.
  unfold base_grids. intros Hbx. destruct dim.
  - apply list_elem_of_bind in Hbx as (i & Hbx & Hi).
    apply list_elem_of_singleton in Hbx as ->. apply elem_of_upto in Hi.
    split; [done|]. intros d Hd. simpl in Hd.
    destruct d as [|d]; [|lia]. by exists i.
  - apply list_elem_of_bind in Hbx as (j & Hbx & Hj).
    apply list_elem_of_bind in Hbx as (i & Hbx & Hi).
    apply list_elem_of_singleton in Hbx as ->.
    apply elem_of_upto in Hi, Hj.
    split; [done|]. intros d Hd. simpl in Hd.
    destruct d as [|[|d]]; [by exists i|by exists j|lia].
  - apply list_elem_of_bind in Hbx as (j & Hbx & Hj).
    apply list_elem_of_bind in Hbx as (i & Hbx & Hi).
    apply list_elem_of_singleton in Hbx as ->.
    apply elem_of_upto in Hi, Hj.
    split; [done|]. intros d Hd. simpl in Hd.
    destruct d as [|[|d]]; [by exists i|by exists j|lia].
  - apply list_elem_of_bind in Hbx as (k & Hbx & Hk).
    apply list_elem_of_bind in Hbx as (j & Hbx & Hj).
    apply list_elem_of_bind in Hbx as (i & Hbx & Hi).
    apply list_elem_of_singleton in Hbx as ->.
    apply elem_of_upto in Hi, Hj, Hk.
    split; [done|]. intros d Hd. simpl in Hd.
    destruct d as [|[|[|d]]]; [by exists i|by exists j|by exists k|lia].
Qed.

(** X16.  The base grids are balanced.  Under the same conditions,
    every box that [PostProcessBaseGrids] makes has, along each
    direction, either the quotient of the number of cells of the domain
    by the number of blocks, or one cell more. *)
Theorem PostProcessBaseGrids_balanced (dim : WARPX_DIM)
    (numprocs : IntVect) (dom : Box) (ba0 : BoxArray) :
  length numprocs = AMREX_SPACEDIM dim ->
  length (bigEnd dom) = AMREX_SPACEDIM dim ->
  Forall (fun n => 0 < n) numprocs ->
  exists ba,
    PostProcessBaseGrids dim numprocs dom ba0 = Some ba /\
    forall bx d, bx ∈ boxes ba -> (d < AMREX_SPACEDIM dim)%nat ->
      let q := Z.quot (IntVect_get (Box_size dom) d) (IntVect_get numprocs d) in
      IntVect_get (Box_size bx) d = q \/ IntVect_get (Box_size bx) d = q + 1.
Proof.
  intros Hnp Hhi Hpos.
  destruct (not_all_zero numprocs Hpos) as [Hall Hex].
  { intros ->. by destruct dim. }
  unfold PostProcessBaseGrids. rewrite Hall, Hex.
  eexists. split; [reflexivity|]. intros bx d Hbx Hd. cbn [boxes] in Hbx.
  apply base_grids_elem in Hbx as [Hlen Hbx].
  destruct (Hbx d Hd) as (i & Hi & Hlo_i & Hhi_i).
  assert (Hcells : IntVect_get (Box_size bx) d
                   = IntVect_get (bigEnd bx) d - IntVect_get (smallEnd bx) d + 1).
  { unfold Box_size. by rewrite IntVect_get_imap by lia. }
  rewrite Hcells, Hlo_i, Hhi_i, block_cells.
  destruct (i <? _);
    rewrite IntVect_get_imap by (unfold Box_size; rewrite length_imap; lia);
    auto.
Qed.

Lemma IntVect_allGT_get (a b : IntVect) :
  length a = length b ->
  (IntVect_allGT a b = true <->
   forall d, (d < length b)%nat -> IntVect_get b d < IntVect_get a d).
Proof.
  revert b. induction a as [|x a IH]; intros [|y b] Hlen; simpl in Hlen;
    try lia.
  - split; [|done]. intros _ d Hd. simpl in Hd. lia.
  - unfold IntVect_allGT. simpl. rewrite andb_true_iff, Z.ltb_lt.
    fold (IntVect_allGT a b). rewrite (IH b) by lia. split.
    + intros [Hxy H] d Hd. destruct d as [|d]; [done|].
      apply (H d). simpl in Hd. lia.
    + intros H. split; [apply (H 0%nat); simpl; lia|].
      intros d Hd. apply (H (S d)). simpl. lia.
Qed.

(** X18.  [CheckGuardCells] passes exactly when every box has more
    cells than guard cells along every direction, the cells being
    counted after the box has been turned into a cell-centred one;
    otherwise it aborts, and the message reports the guard cells of
    the MultiFab and the cell counts of a box that has too few along
    some direction and is preceded only by boxes that have enough. *)
Theorem CheckGuardCells_spec (mf : MultiFab) :
  Forall (fun bx => length (bigEnd bx) = length (nGrowVect mf))
         (boxes (boxArray mf)) ->
  let typ := ixType (boxArray mf) in
  let enough bx :=
    forall d, (d < length (nGrowVect mf))%nat ->
      IntVect_get (nGrowVect mf) d
      < IntVect_get (bigEnd bx) d - IntVect_get typ d
        - IntVect_get (smallEnd bx) d + 1 in
  match CheckGuardCells mf with
  | GuardCellsOk => Forall enough (boxes (boxArray mf))
  | TooManyGuardCells gc vc =>
      gc = nGrowVect mf /\
      exists before bx after,
        boxes (boxArray mf) = before ++ bx :: after /\
        Forall enough before /\ ~ enough bx /\
        vc = enclosedCells_size typ bx
  end.
Proof.
  intros Hlen typ enough. unfold CheckGuardCells. fold typ.
  assert (Hen : forall bx, length (bigEnd bx) = length (nGrowVect mf) ->
            (IntVect_allGT (enclosedCells_size typ bx) (nGrowVect mf) = true
             <-> enough bx)).
  { intros bx Hbx. rewrite IntVect_allGT_get
      by (unfold enclosedCells_size; by rewrite length_imap).
    unfold enough. split; intros H d Hd; specialize (H d Hd);
      unfold enclosedCells_size in *;
      rewrite IntVect_get_imap in * by lia; done. }
  induction (boxes (boxArray mf)) as [|bx rest IH]; simpl; [done|].
  apply Forall_cons in Hlen as [Hbx Hrest]. specialize (IH Hrest).
  destruct (IntVect_allGT _ _) eqn:E; simpl.
  - apply Hen in E; [|done].
    destruct (CheckGuardCells_boxes typ (nGrowVect mf) rest) as [|gc vc].
    + by constructor.
    + destruct IH as (Hgc & before & bx' & after & Hsplit & Hb & Hn & Hvc).
      split; [done|]. exists (bx :: before), bx', after.
      rewrite Hsplit. split; [done|]. split; [by constructor|done].
  - split; [done|]. exists [], bx, rest. split; [done|].
    split; [constructor|]. split; [|done].
    intros Habs. apply Hen in Habs; [|done]. congruence.
Qed.

End InitData_more.

(** ** Coarsening: what a call leaves alone *)

Section CoarsenIO_frame.
Import amrex CoarsenIO.

Variable dim : WARPX_DIM.
Variable stencil :
  Z * Z * Z -> Z * Z * Z -> Z * Z * Z -> Z -> Z -> Z -> list (R * (Z * Z * Z)).
Variable Box_convert : IntVect -> IntVect -> Box -> Box.
Variable Box_coarsen : IntVect -> IntVect -> Box -> Box.
Variable coarsenable : BoxArray -> IntVect -> bool.
Variable uninitialized : nat -> Array4.

Local Abbreviation Loop := (CoarsenIO.Loop dim stencil).
Local Abbreviation Coarsen :=
  (CoarsenIO.Coarsen dim stencil Box_convert Box_coarsen coarsenable
     uninitialized).

Lemma MFIter_loop_failure mf_src dcomp scomp ncomp ng sf sc cr :
  forall idxs mf_dst mf_dst' f,
    MFIter_loop (Loop_box stencil mf_src dcomp scomp ncomp ng sf sc cr)
                idxs mf_dst = (mf_dst', Some f) ->
    f = OutOfBounds.
Proof.
  induction idxs as [|b rest IH]; intros mf_dst mf_dst' f Hrun; simpl in Hrun;
    [done|].
  destruct (Loop_box stencil mf_src dcomp scomp ncomp ng sf sc cr mf_dst b)
    as [mf1 [f1|]] eqn:Ebody.
  - injection Hrun as _ <-. unfold Loop_box in Ebody.
    destruct (boxes (boxArray mf_dst) !! b); [|by injection Ebody as _ <-].
    destruct (boxes (boxArray mf_src) !! b); [|by injection Ebody as _ <-].
    destruct (_ || _); [done|by injection Ebody as _ <-].
  - by eapply IH.
Qed.

Lemma Loop_failure mf_dst mf_src dcomp scomp ncomp ng crse_ratio mf_dst' f :
  Loop mf_dst mf_src dcomp scomp ncomp ng crse_ratio = (mf_dst', Some f) ->
  f = OutOfBounds \/
  (mf_dst' = mf_dst /\
   (f = AssertionFailed guard_fill_unsupported \/
    f = AssertionFailed not_enough_guard_cells)).
Proof.
  unfold CoarsenIO.Loop, asserting, WARPX_ALWAYS_ASSERT_WITH_MESSAGE.
  intros Hrun.
  destruct (IntVect_gt crse_ratio _).
  - destruct (IntVect_eq ng _).
    + destruct (IntVect_ge _ _).
      * left. by eapply MFIter_loop_failure.
      * injection Hrun as <- <-. auto.
    + injection Hrun as <- <-. auto.
  - destruct (IntVect_ge _ _).
    + left. by eapply MFIter_loop_failure.
    + injection Hrun as <- <-. auto.
Qed.

(** X19.  How [Coarsen] and [Loop] fail.  A call that ends on an
    assertion leaves the destination exactly as it was, and the message
    is one of the three of the file (for [Loop], one of its two); no
    call ends on an input error. *)
Theorem Coarsen_assertion_leaves_destination
    (mf_dst mf_src : MultiFab) (dcomp scomp ncomp : Z)
    (ngrowvect crse_ratio : IntVect) :
  match Coarsen mf_dst mf_src dcomp scomp ncomp ngrowvect crse_ratio with
  | (mf_dst', Some (AssertionFailed msg)) =>
      mf_dst' = mf_dst /\
      (msg = not_coarsenable \/ msg = guard_fill_unsupported \/
       msg = not_enough_guard_cells)
  | (_, Some InputError) => False
  | (_, Some OutOfBounds) | (_, None) => True
  end /\
  match Loop mf_dst mf_src dcomp scomp ncomp ngrowvect crse_ratio with
  | (mf_dst', Some (AssertionFailed msg)) =>
      mf_dst' = mf_dst /\
      (msg = guard_fill_unsupported \/ msg = not_enough_guard_cells)
  | (_, Some InputError) => False
  | (_, Some OutOfBounds) | (_, None) => True
  end.
Proof.
  assert (HL : forall mf_d dc,
    match Loop mf_d mf_src dc scomp ncomp ngrowvect crse_ratio with
    | (mf_dst', Some (AssertionFailed msg)) =>
        mf_dst' = mf_d /\
        (msg = guard_fill_unsupported \/ msg = not_enough_guard_cells)
    | (_, Some InputError) => False
    | (_, Some OutOfBounds) | (_, None) => True
    end).
  { intros mf_d dc.
    destruct (Loop mf_d mf_src dc scomp ncomp ngrowvect crse_ratio)
      as [mf' [f|]] eqn:E; [|done].
    apply Loop_failure in E as [->|[-> [->| ->]]]; auto. }
  split; [|apply HL].
  unfold CoarsenIO.Coarsen, asserting, WARPX_ALWAYS_ASSERT_WITH_MESSAGE.
  destruct (coarsenable _ _); [|auto].
  destruct (same_layout _ _ _ _ _).
  - specialize (HL mf_dst dcomp).
    destruct (Loop mf_dst mf_src dcomp scomp ncomp ngrowvect crse_ratio)
      as [mf' [[msg| |]|]]; try done.
    destruct HL as [-> [->| ->]]; auto.
  - match goal with
    | |- context [Loop ?m mf_src 0 scomp ncomp ngrowvect crse_ratio] =>
        specialize (HL m 0);
        destruct (Loop m mf_src 0 scomp ncomp ngrowvect crse_ratio)
          as [mf' [[msg| |]|]]
    end; try done.
    destruct HL as [_ [->| ->]]; auto.
Qed.

(** Where a call of [Loop] on [mf_dst] stores nothing: the components
    outside [dcomp .. dcomp+ncomp-1], and the points outside the box
    grown by the requested guard cells. *)
Lemma MFIter_loop_frame mf_src dcomp scomp ncomp ng sf sc cr :
  forall idxs mf_dst,
    let mf_dst' :=
      fst (MFIter_loop (Loop_box stencil mf_src dcomp scomp ncomp ng sf sc cr)
             idxs mf_dst) in
    boxArray mf_dst' = boxArray mf_dst /\
    DistributionMap mf_dst' = DistributionMap mf_dst /\
    nComp mf_dst' = nComp mf_dst /\
    nGrowVect mf_dst' = nGrowVect mf_dst /\
    forall b i j k c,
      (c < dcomp \/ dcomp + ncomp <= c \/
       forall vbx, boxes (boxArray mf_dst) !! b = Some vbx ->
                   Box_contains (grow vbx ng) i j k = false) ->
      fabs mf_dst' b i j k c = fabs mf_dst b i j k c.
Proof.
  induction idxs as [|b0 rest IH]; intros mf_dst; simpl; [done|].
  destruct (Loop_box stencil mf_src dcomp scomp ncomp ng sf sc cr mf_dst b0)
    as [mf1 [f1|]] eqn:Ebody.
  - simpl. unfold Loop_box in Ebody.
    destruct (boxes (boxArray mf_dst) !! b0); [|by injection Ebody as <- _].
    destruct (boxes (boxArray mf_src) !! b0); [|by injection Ebody as <- _].
    destruct (_ || _); [done|by injection Ebody as <- _].
  - specialize (IH mf1). simpl in IH.
    destruct IH as (Hba & Hdm & Hnc & Hng & Hfab).
    unfold Loop_box in Ebody.
    destruct (boxes (boxArray mf_dst) !! b0) as [vbx0|] eqn:Evbx; [|done].
    destruct (boxes (boxArray mf_src) !! b0) as [sbx|]; [|done].
    destruct (_ || _); [|done].
    injection Ebody as <-.
    cbn [set_fab boxArray DistributionMap nComp nGrowVect fabs] in *.
    repeat (split; [done|]).
    intros b i j k c Hout. rewrite Hfab by done.
    case_decide as Hb; [|done]. subst b. unfold ParallelFor.
    destruct Hout as [Hc|[Hc|Hbox]].
    + replace (dcomp <=? c) with false by lia. by rewrite andb_false_r.
    + replace (c <? dcomp + ncomp) with false by lia. by rewrite andb_false_r.
    + by rewrite (Hbox vbx0 Evbx).
Qed.

Lemma Loop_frame mf_dst mf_src dcomp scomp ncomp ng crse_ratio :
  let mf_dst' := fst (Loop mf_dst mf_src dcomp scomp ncomp ng crse_ratio) in
  boxArray mf_dst' = boxArray mf_dst /\
  DistributionMap mf_dst' = DistributionMap mf_dst /\
  nComp mf_dst' = nComp mf_dst /\
  nGrowVect mf_dst' = nGrowVect mf_dst /\
  forall b i j k c,
    (c < dcomp \/ dcomp + ncomp <= c \/
     forall vbx, boxes (boxArray mf_dst) !! b = Some vbx ->
                 Box_contains (grow vbx ng) i j k = false) ->
    fabs mf_dst' b i j k c = fabs mf_dst b i j k c.
Proof.
  unfold CoarsenIO.Loop, asserting.
  destruct (if IntVect_gt crse_ratio _ then _ else _); [|done].
  destruct (WARPX_ALWAYS_ASSERT_WITH_MESSAGE _ _); [|done].
  apply MFIter_loop_frame.
Qed.

(** X20.  What [Coarsen] never writes.  Whatever the outcome of the
    call, the destination keeps its boxes, its distribution, its number
    of components and its guard cells; it keeps every value in a
    component outside [dcomp .. dcomp+ncomp-1]; and it keeps every
    value at a point outside its boxes, grown by the requested guard
    cells when the layouts match.  The same holds for a direct call of
    [Loop]. *)
Theorem Coarsen_writes_only_requested
    (mf_dst mf_src : MultiFab) (dcomp scomp ncomp : Z)
    (ngrowvect crse_ratio : IntVect) :
  let after_Coarsen :=
    fst (Coarsen mf_dst mf_src dcomp scomp ncomp ngrowvect crse_ratio) in
  let after_Loop :=
    fst (Loop mf_dst mf_src dcomp scomp ncomp ngrowvect crse_ratio) in
  (boxArray after_Coarsen = boxArray mf_dst /\
   DistributionMap after_Coarsen = DistributionMap mf_dst /\
   nComp after_Coarsen = nComp mf_dst /\
   nGrowVect after_Coarsen = nGrowVect mf_dst /\
   forall b i j k c,
     (c < dcomp \/ dcomp + ncomp <= c \/
      forall vbx, boxes (boxArray mf_dst) !! b = Some vbx ->
        Box_contains
          (if same_layout Box_convert Box_coarsen mf_dst mf_src crse_ratio
           then grow vbx ngrowvect else vbx) i j k = false) ->
     fabs after_Coarsen b i j k c = fabs mf_dst b i j k c) /\
  (boxArray after_Loop = boxArray mf_dst /\
   DistributionMap after_Loop = DistributionMap mf_dst /\
   nComp after_Loop = nComp mf_dst /\
   nGrowVect after_Loop = nGrowVect mf_dst /\
   forall b i j k c,
     (c < dcomp \/ dcomp + ncomp <= c \/
      forall vbx, boxes (boxArray mf_dst) !! b = Some vbx ->
        Box_contains (grow vbx ngrowvect) i j k = false) ->
     fabs after_Loop b i j k c = fabs mf_dst b i j k c).
Proof.
  intros after_Coarsen after_Loop. split; [|apply Loop_frame].
  unfold after_Coarsen, CoarsenIO.Coarsen, asserting.
  destruct (WARPX_ALWAYS_ASSERT_WITH_MESSAGE _ _); [|done].
  destruct (same_layout _ _ _ _ _); [apply Loop_frame|].
  match goal with
  | |- context [Loop ?m mf_src 0 scomp ncomp ngrowvect crse_ratio] =>
      destruct (Loop m mf_src 0 scomp ncomp ngrowvect crse_ratio)
        as [mf_tmp' [f|]]
  end; [done|].
  cbn [fst ParallelCopy boxArray DistributionMap nComp nGrowVect fabs].
  repeat (split; [done|]).
  intros b i j k c Hout.
  destruct (boxes (boxArray mf_dst) !! b) as [vbx|] eqn:Evbx; [|done].
  destruct Hout as [Hc|[Hc|Hbox]].
  - replace (dcomp <=? c) with false by lia. by rewrite andb_false_r.
  - replace (c <? dcomp + ncomp) with false by lia. by rewrite andb_false_r.
  - by rewrite (Hbox vbx).
Qed.

End CoarsenIO_frame.

(** ** The last step of a boosted-frame accelerator run: the test on
    the direction of the boost *)

Section BoostAccelerator_more.
Import InitData.
Local Open Scope R_scope.

Variable WARPX_ZINDEX : Z.
Variable c : R.
Variable Real_sub Real_mul Real_div : R -> R -> R.

Local Abbreviation computeMaxStepBoostAccelerator :=
  (InitData.computeMaxStepBoostAccelerator WARPX_ZINDEX c
     Real_sub Real_mul Real_div).

Lemma tolerance_bounds : 0 < 1 / 10 ^ 12 < 1.
Proof.
  assert (H : 1 < 10 ^ 12) by (simpl; lra).
  split.
  - apply Rdiv_lt_0_compat; lra.
  - apply Rmult_lt_reg_r with (10 ^ 12); [lra|].
    replace (1 / 10 ^ 12 * 10 ^ 12) with 1 by (field; lra). lra.
Qed.

Lemma boost_along_z_iff (w : accelerator) :
  boost_along_z w = true <-> boost_direction w = (0, 0, 1)%Z.
Proof.
  unfold boost_along_z. destruct (boost_direction w) as [[b0 b1] b2].
  pose proof tolerance_bounds as [Ht0 Ht1].
  destruct (Rlt_dec _ _) as [Hlt|Hge]; split; try done.
  - intros _.
    assert (H : IZR ((b0 - 0) * (b0 - 0) + (b1 - 0) * (b1 - 0)
                     + (b2 - 1) * (b2 - 1)) < IZR 1) by (simpl; lra).
    apply lt_IZR in H.
    pose proof (Z.square_nonneg (b0 - 0)) as S0.
    pose proof (Z.square_nonneg (b1 - 0)) as S1.
    pose proof (Z.square_nonneg (b2 - 1)) as S2.
    assert (E0 : ((b0 - 0) * (b0 - 0) = 0)%Z) by lia.
    assert (E1 : ((b1 - 0) * (b1 - 0) = 0)%Z) by lia.
    assert (E2 : ((b2 - 1) * (b2 - 1) = 0)%Z) by lia.
    apply Z.mul_eq_0 in E0, E1, E2.
    assert (b0 = 0 /\ b1 = 0 /\ b2 = 1)%Z as (-> & -> & ->) by lia. done.
  - intros [= -> -> ->]. exfalso. apply Hge.
    replace ((0 - 0) * (0 - 0) + (0 - 0) * (0 - 0) + (1 - 1) * (1 - 1))%Z
      with 0%Z by lia.
    exact Ht0.
Qed.

(** X22.  The test on the direction of the boost is exact.  In a
    boosted frame ([gamma_boost > 1]) with the window along z, the
    call fails with the message about the direction of the boost
    exactly when [boost_direction] is not [(0, 0, 1)]: the components
    are integers, so the tolerance of the test lets no other direction
    through. *)
Theorem computeMaxStepBoostAccelerator_direction
    (zmin_domain_boost : R) (w : accelerator) :
  moving_window_dir w = WARPX_ZINDEX ->
  1 < gamma_boost w ->
  (computeMaxStepBoostAccelerator zmin_domain_boost w
   = Fail (AssertionFailed boost_not_along_z)
   <-> boost_direction w <> (0, 0, 1)%Z).
Proof.
  intros Hdir Hg. unfold InitData.computeMaxStepBoostAccelerator.
  rewrite Hdir, Z.eqb_refl. cbn [WARPX_ALWAYS_ASSERT_WITH_MESSAGE obind].
  destruct (Rlt_dec 1 (gamma_boost w)) as [_|Hn]; [|done].
  pose proof (boost_along_z_iff w) as Hiff.
  destruct (boost_along_z w); cbn [obind].
  - split.
    + destruct (dt w !! _) as [dt_lev|]; [|discriminate].
      destruct (static_cast_int _); discriminate.
    + intros Hne. exfalso. apply Hne. by apply Hiff.
  - split; [|done]. intros _ Hb. apply Hiff in Hb. discriminate.
Qed.

End BoostAccelerator_more.

(** ** Instances *)

Section Instances.
Import amrex.

Lemma InjectorDensityCustom_stores_parameters_witness :
  exists p,
    CustomDensity.InjectorDensityCustom three_params "beam" six_zeros = Done p /\
    length p = 6%nat /\
    forall x y z, CustomDensity.getDensity p x y z = Some 1%R.
Proof.
  destruct (InjectorDensityCustom_stores_parameters three_params "beam"
              six_zeros [1; 2; 3]%R)
    as (p & Hrun & Hlen & _ & _ & Hd).
  - reflexivity.
  - reflexivity.
  - simpl. lia.
  - exists p. auto.
Defined.

Lemma AddRealComp_fresh_witness :
  ParticleComps.particle_comps
    (ParticleComps.AddRealComp 1 "opticalDepthQSR" true pc_one_attribute)
    !! "opticalDepthQSR" = Some 1.
Proof.
  destruct (AddRealComp_fresh 1 "opticalDepthQSR" true pc_one_attribute)
    as [H _].
  - reflexivity.
  - exact H.
Defined.

Lemma pc_one_attribute_ok : ParticleComps.registry_ok 1 pc_one_attribute.
Proof.
  unfold ParticleComps.registry_ok, pc_one_attribute. simpl.
  split; [|split].
  - intros name i H. apply lookup_singleton_Some in H as [_ <-].
    unfold ParticleComps.NumRealComps. simpl. lia.
  - intros n1 n2 i H1 H2.
    apply lookup_singleton_Some in H1 as [<- _].
    apply lookup_singleton_Some in H2 as [<- _]. done.
  - intros name r H. by rewrite lookup_empty in H.
Defined.

Lemma AddRealComp_keeps_registry_ok_witness :
  ParticleComps.registry_ok 1
    (ParticleComps.AddRealComp 1 "opticalDepthQSR" true pc_one_attribute).
Proof.
  apply (AddRealComp_keeps_registry_ok 1 "opticalDepthQSR" true
           pc_one_attribute).
  exact pc_one_attribute_ok.
Defined.

Lemma Flush_closes_snapshot_witness :
  BTD.DoDump BTD.buffer_full_std BTD.buffer_empty_std btd_last_slice 3 0 false
  = Some true /\
  BTD.m_snapshot_full btd_run1 !! 0%nat = Some 1 /\
  BTD.DoDump BTD.buffer_full_std BTD.buffer_empty_std btd_run1 3 0 true
  = Some false.
Proof.
  destruct (Flush_closes_snapshot BTD.buffer_full_std BTD.buffer_empty_std
              BTD.ResetBufferCounter_std BTD.IncrementBufferFlushCounter_std
              0 btd_last_slice btd_run1) as (Hbefore & Hfull & Hafter).
  - reflexivity.
  - reflexivity.
  - split; [|split].
    + apply (Hbefore 0); [reflexivity|lia|lia].
    + exact Hfull.
    + apply Hafter.
Defined.

Lemma full_only_after_last_slice_witness :
  BTD.m_num_buffers btd_after_update = 2%nat /\
  length (BTD.m_snapshot_full btd_after_update) = 2%nat /\
  length (BTD.m_lastValidZSlice btd_after_update) = 2%nat /\
  forall i, BTD.m_snapshot_full btd_after_update !! i = Some 1 ->
            BTD.m_lastValidZSlice btd_after_update !! i = Some 1.
Proof.
  apply (full_only_after_last_slice
           BTD.ResetBufferCounter_std BTD.IncrementBufferFlushCounter_std
           2 4 btd_after_update).
  eapply rtc_l; [|apply rtc_refl].
  apply (BTD.step_UpdateBufferData _ _ (fun _ => true) (fun _ => 0)).
  reflexivity.
Defined.

Lemma UpdateBufferData_effect_witness :
  exists bt',
    BTD.UpdateBufferData (fun _ => true) (fun _ => 0) btd_run0 = Some bt' /\
    BTD.m_buffer_counter bt' !! 1%nat = Some 1 /\
    BTD.m_lastValidZSlice bt' !! 1%nat = Some 1.
Proof.
  destruct (UpdateBufferData_effect (fun _ => true) (fun _ => 0) btd_run0)
    as (bt' & Hrun & _ & _ & Hct & Hlv).
  - reflexivity.
  - reflexivity.
  - exists bt'. split; [exact Hrun|]. split.
    + apply (Hct 1%nat 0). reflexivity.
    + apply (Hlv 1%nat 0). reflexivity.
Defined.

Lemma flush_counters_conserve_particles_witness :
  exists c',
    BTDBuffers.flush_counters 0 two_species = Some c' /\
    BTDBuffers.m_totalParticles_flushed_already c' !! 0%nat = Some [7; 10] /\
    BTDBuffers.m_totalParticles_in_buffer c' !! 0%nat = Some [0; 0].
Proof.
  destruct (flush_counters_conserve_particles 0 two_species [5; 7] [2; 3])
    as (c' & Hrun & Hf & Hb & _).
  - reflexivity.
  - reflexivity.
  - reflexivity.
  - intros [|[|isp]] x y Hx Hy; simpl in Hx, Hy; try done;
      injection Hx as <-; injection Hy as <-; unfold INT_MIN, INT_MAX; lia.
  - exists c'. auto.
Defined.

Lemma snapshot_box_holds_whole_buffers_witness :
  BTDBuffers.Box_length (BTDBuffers.buffer_box 1 20 4 box_10x10) 1 = 4 /\
  BTDBuffers.Box_length (BTDBuffers.snapshot_box 1 20 10 4 box_10x10) 1
  = BTDBuffers.max_buffer_multifabs 10 4 * 4.
Proof.
  destruct (snapshot_box_holds_whole_buffers 1 20 10 4 box_10x10 box_10x10)
    as (Hb & Hs & _); [simpl; lia..|].
  auto.
Defined.

Lemma PostProcessBaseGrids_tiles_domain_witness :
  exists ba,
    InitData.PostProcessBaseGrids DIM_XZ [2; 3] domain_7x8
      (mkBoxArray [] [0; 0]) = Some ba /\
    length (List.filter (fun bx => Box_contains bx 6 7 0) (boxes ba)) = 1%nat /\
    length (List.filter (fun bx => Box_contains bx 7 7 0) (boxes ba)) = 0%nat.
Proof.
  destruct (PostProcessBaseGrids_tiles_domain DIM_XZ [2; 3] domain_7x8
              (mkBoxArray [] [0; 0])) as (ba & Hrun & Hcount).
  - reflexivity.
  - reflexivity.
  - reflexivity.
  - repeat constructor.
  - reflexivity.
  - exists ba. split; [exact Hrun|]. split.
    + apply (Hcount 6 7 0).
    + apply (Hcount 7 7 0).
Defined.

Lemma PostProcessBaseGrids_balanced_witness :
  exists ba,
    InitData.PostProcessBaseGrids DIM_XZ [2; 3] domain_7x8
      (mkBoxArray [] [0; 0]) = Some ba /\
    forall bx, bx ∈ boxes ba ->
      IntVect_get (InitData.Box_size bx) 0 = 3 \/
      IntVect_get (InitData.Box_size bx) 0 = 3 + 1.
Proof.
  destruct (PostProcessBaseGrids_balanced DIM_XZ [2; 3] domain_7x8
              (mkBoxArray [] [0; 0])) as (ba & Hrun & Hsz).
  - reflexivity.
  - reflexivity.
  - repeat constructor.
  - exists ba. split; [exact Hrun|]. intros bx Hbx.
    apply (Hsz bx 0%nat Hbx). simpl. lia.
Defined.

Lemma CheckGuardCells_spec_witness :
  match InitData.CheckGuardCells fine_ones with
  | InitData.GuardCellsOk =>
      Forall (fun bx =>
                forall d, (d < length (nGrowVect fine_ones))%nat ->
                  IntVect_get (nGrowVect fine_ones) d
                  < IntVect_get (bigEnd bx) d
                    - IntVect_get (ixType (boxArray fine_ones)) d
                    - IntVect_get (smallEnd bx) d + 1)
             (boxes (boxArray fine_ones))
  | InitData.TooManyGuardCells gc vc =>
      gc = nGrowVect fine_ones /\
      exists before bx after,
        boxes (boxArray fine_ones) = before ++ bx :: after /\
        Forall (fun bx =>
                  forall d, (d < length (nGrowVect fine_ones))%nat ->
                    IntVect_get (nGrowVect fine_ones) d
                    < IntVect_get (bigEnd bx) d
                      - IntVect_get (ixType (boxArray fine_ones)) d
                      - IntVect_get (smallEnd bx) d + 1) before /\
        ~ (forall d, (d < length (nGrowVect fine_ones))%nat ->
             IntVect_get (nGrowVect fine_ones) d
             < IntVect_get (bigEnd bx) d
               - IntVect_get (ixType (boxArray fine_ones)) d
               - IntVect_get (smallEnd bx) d + 1) /\
        vc = InitData.enclosedCells_size (ixType (boxArray fine_ones)) bx
  end.
Proof.
  apply (CheckGuardCells_spec fine_ones). repeat constructor.
Defined.

Lemma computeMaxStepBoostAccelerator_direction_witness :
  InitData.computeMaxStepBoostAccelerator 1 1 Rminus Rmult Rdiv 0
    sideways_boost
  = Fail (AssertionFailed InitData.boost_not_along_z).
Proof.
  apply (computeMaxStepBoostAccelerator_direction 1 1 Rminus Rmult Rdiv 0
           sideways_boost).
  - reflexivity.
  - simpl. lra.
  - discriminate.
Defined.

End Instances.
